(** * enproxy: the outbound worker of the client-side connection

    A shallow embedding of [conn_impl_requests.go]: [processRequests],
    [submitRequest] and [cleanupAfterRequests].

    The worker is sequential Go code that talks to the rest of the
    connection through channels.  It is embedded as a state-passing
    program over
    - the fields of [Conn] it touches ([requestOutCh], [stopRequestCh],
      [doneRequesting]),
    - its own local variables and its stack of deferred calls ([frame]),
    - the list of actions it performs, in program order ([action]).

    Everything the worker calls but that lives elsewhere ([dialProxy],
    [doRequest], [isClosed], [isIdle], the choice made by [select]) is
    answered by an [oracle], one per pass through the loop.  The system
    ([run]) interleaves passes of the worker with submissions and stop
    signals coming from the other goroutines.  A call of [submitRequest]
    that runs during a pass of the worker has the same effect as one that
    runs before or after the pass, with one exception: a call that runs
    while [cleanupAfterRequests] is between the [default] case of its
    [select] and [Lock()].  The oracle of the pass lists the requests
    submitted there ([late_submits]). *)

From stdpp Require Import base strings list gmap.
From Stdlib Require Import ZArith Lia.

Open Scope string_scope.
Open Scope list_scope.

(** ** Go values *)

(** [error]: the two sentinel values of package [io] used by the worker, and
    errors made from a message ([fmt.Errorf], errors of the transport). *)
Inductive error : Type :=
| io_EOF
| io_ErrUnexpectedEOF
| errorString (s : string).

Definition Error (e : error) : string :=
  match e with
  | io_EOF => "EOF"
  | io_ErrUnexpectedEOF => "unexpected EOF"
  | errorString s => s
  end.

Global Instance error_eq_dec : EqDecision error.
Proof. solve_decision. Defined.

(** [*http.Response]: the headers and a handle on the body. *)
Record Response : Type := mkResponse {
  Header : gmap string (list string);
  Body : nat
}.

Global Instance Response_eq_dec : EqDecision Response.
Proof. solve_decision. Defined.

(** [http.Header.Get]: the first value stored under the key, or the empty
    string.  Keys are taken in canonical form. *)
Definition Header_Get (h : gmap string (list string)) (key : string) : string :=
  match h !! key with
  | Some (v :: _) => v
  | _ => ""
  end.

(** Modelled from the spec: the Outbound Item, "an opaque byte payload plus
    the destination address"; the [request] struct is declared outside
    [conn_impl_requests.go]. *)
Record request : Type := mkRequest {
  payload : string;
  dest : string
}.

Global Instance request_eq_dec : EqDecision request.
Proof. solve_decision. Defined.

(** [net.Conn] and [*bufio.Reader] are handles. *)
Definition net_Conn : Type := nat.
Definition bufio_Reader : Type := nat.

(** [hostWithResponse{proxyHost, resp, err}] *)
Record hostWithResponse : Type := mkHostWithResponse {
  hwr_proxyHost : string;
  hwr_resp : option Response;
  hwr_err : option error
}.

Global Instance hostWithResponse_eq_dec : EqDecision hostWithResponse.
Proof. solve_decision. Defined.

(** The result of a call into code that may raise a runtime fault. *)
Inductive call (A : Type) : Type :=
| returns (a : A)
| panics (v : string).
Arguments returns {A} a.
Arguments panics {A} v.

(** ** The connection *)

(** The fields of [Conn] read or written by this file.  A channel is the
    list of values sent and not yet received, oldest first; its capacity is
    set by [makeChannels], outside this file, and a send is taken not to
    block. *)
Record Conn : Type := mkConn {
  Addr : string;
  IdleTimeout : Z;
  requestOutCh : list request;
  requestOutCh_closed : bool;
  stopRequestCh : nat;
  doneRequesting : bool
}.

Definition set_requestOutCh (q : list request) (c : Conn) : Conn :=
  mkConn (Addr c) (IdleTimeout c) q (requestOutCh_closed c)
         (stopRequestCh c) (doneRequesting c).

Definition set_stopRequestCh (n : nat) (c : Conn) : Conn :=
  mkConn (Addr c) (IdleTimeout c) (requestOutCh c) (requestOutCh_closed c)
         n (doneRequesting c).

Definition set_doneRequesting (b : bool) (c : Conn) : Conn :=
  mkConn (Addr c) (IdleTimeout c) (requestOutCh c) (requestOutCh_closed c)
         (stopRequestCh c) b.

Definition close_requestOutCh (c : Conn) : Conn :=
  mkConn (Addr c) (IdleTimeout c) (requestOutCh c) true
         (stopRequestCh c) (doneRequesting c).

(** A connection as [Dial] hands it to the worker: channels open and empty,
    requests accepted. *)
Definition newConn (addr : string) (idle : Z) : Conn :=
  mkConn addr idle [] false 0 false.

(** ** Actions *)

(** What the goroutines do to the outside, in program order. *)
Inductive action : Type :=
| a_log (msg : string)
| a_dialProxy
| a_checkConn (proxyConn : option net_Conn) (usable : bool)
| a_isClosed (b : bool)
| a_isIdle (b : bool)
| a_recvRequest (r : request)
| a_recvStop
| a_timer (d : Z)
| a_doRequest (proxyConn : option net_Conn) (bufReader : option bufio_Reader)
              (proxyHost op : string) (r : request)
| a_doRequestDone (resp : option Response) (err : option error)
| a_doRequestFault (v : string)
| a_requestFinished (err : option error)
| a_initialResponse (h : hostWithResponse)
| a_bodyClose (resp : Response)
| a_proxyConnClose (pc : net_Conn)
| a_cleanup (resp : option Response) (panicked : option string)
| a_lock
| a_setDoneRequesting
| a_unlock
| a_closeRequestOutCh
| a_rlock
| a_readDoneRequesting (b : bool)
| a_runlock
| a_sendRequest (r : request)
| a_sendStop
| a_panic (v : string).

Global Instance action_eq_dec : EqDecision action.
Proof. solve_decision. Defined.

(** ** The worker's frame *)

(** A deferred call.  [defer c.cleanupAfterRequests(resp)] evaluates its
    argument when the [defer] statement runs and keeps the value; the
    deferred closure reads [proxyConn] when it runs. *)
Inductive deferred : Type :=
| d_cleanupAfterRequests (resp : option Response)
| d_closeProxyConn.

(** The local variables of [processRequests] and its deferred calls, the
    most recent first. *)
Record frame : Type := mkFrame {
  resp : option Response;
  proxyConn : option net_Conn;
  bufReader : option bufio_Reader;
  err : option error;
  proxyHost : string;
  first : bool;
  defers : list deferred
}.

Definition frame0 : frame := mkFrame None None None None "" false [].

Definition set_resp (v : option Response) (f : frame) : frame :=
  mkFrame v (proxyConn f) (bufReader f) (err f) (proxyHost f) (first f) (defers f).
Definition set_proxyConn (v : option net_Conn) (f : frame) : frame :=
  mkFrame (resp f) v (bufReader f) (err f) (proxyHost f) (first f) (defers f).
Definition set_bufReader (v : option bufio_Reader) (f : frame) : frame :=
  mkFrame (resp f) (proxyConn f) v (err f) (proxyHost f) (first f) (defers f).
Definition set_err (v : option error) (f : frame) : frame :=
  mkFrame (resp f) (proxyConn f) (bufReader f) v (proxyHost f) (first f) (defers f).
Definition set_proxyHost (v : string) (f : frame) : frame :=
  mkFrame (resp f) (proxyConn f) (bufReader f) (err f) v (first f) (defers f).
Definition set_first (v : bool) (f : frame) : frame :=
  mkFrame (resp f) (proxyConn f) (bufReader f) (err f) (proxyHost f) v (defers f).
Definition push_defer (d : deferred) (f : frame) : frame :=
  mkFrame (resp f) (proxyConn f) (bufReader f) (err f) (proxyHost f) (first f)
          (d :: defers f).

(** ** The environment *)

(** Which ready case a [select] takes when several are ready. *)
Inductive preference : Type :=
| prefer_request
| prefer_stop
| prefer_timer.

(** The answers of the environment during one pass of the worker.
    [late_submits] are the requests that other goroutines pass to
    [submitRequest] after the [select] of the cleanup has taken its
    [default] case and before the cleanup takes the lock. *)
Record oracle : Type := mkOracle {
  dialProxy_result : call (option net_Conn * option bufio_Reader * option error);
  isClosed_result : bool;
  select_preference : preference;
  conn_usable : bool;
  doRequest_result : call (option Response * option error);
  isIdle_result : bool;
  cleanup_preference : list bool;
  late_submits : list request
}.

(** ** A monad for the body of the worker *)

Record world : Type := mkWorld {
  w_conn : Conn;
  w_frame : frame;
  w_out : list action
}.

(** How a statement ends: it falls through with a value, it executes
    [return], or it raises a runtime fault. *)
Inductive flow (A : Type) : Type :=
| next (a : A)
| returning
| panicking (v : string).
Arguments next {A} a.
Arguments returning {A}.
Arguments panicking {A} v.

Definition M (A : Type) : Type := world -> flow A * world.

Definition ret {A} (a : A) : M A := fun w => (next a, w).

Definition bind {A B} (m : M A) (k : A -> M B) : M B :=
  fun w =>
    match m w with
    | (next a, w') => k a w'
    | (returning, w') => (returning, w')
    | (panicking v, w') => (panicking v, w')
    end.

Declare Scope go_scope.
Delimit Scope go_scope with go.
Notation "x <- m ;; k" := (bind m (fun x => k))
  (at level 100, m at next level, right associativity) : go_scope.
Notation "m ;; k" := (bind m (fun _ => k))
  (at level 100, right associativity) : go_scope.
Open Scope go_scope.

Definition emit (a : action) : M unit :=
  fun w => (next tt, mkWorld (w_conn w) (w_frame w) (w_out w ++ [a])).

Definition go_return {A} : M A := fun w => (returning, w).

Definition go_panic {A} (v : string) : M A :=
  fun w => (panicking v, mkWorld (w_conn w) (w_frame w) (w_out w ++ [a_panic v])).

Definition getf {A} (p : frame -> A) : M A := fun w => (next (p (w_frame w)), w).

Definition modf (u : frame -> frame) : M unit :=
  fun w => (next tt, mkWorld (w_conn w) (u (w_frame w)) (w_out w)).

Definition getc {A} (p : Conn -> A) : M A := fun w => (next (p (w_conn w)), w).

Definition modc (u : Conn -> Conn) : M unit :=
  fun w => (next tt, mkWorld (u (w_conn w)) (w_frame w) (w_out w)).

Definition when (b : bool) (m : M unit) : M unit := if b then m else ret tt.

Section Worker.

(** The header that carries the pin and the operation tag of a write are
    constants declared outside [conn_impl_requests.go]. *)
Variable X_ENPROXY_PROXY_HOST : string.
Variable OP_WRITE : string.

(** ** Calls out of the file *)

(** [c.dialProxy()], the Transport Dialer. *)
Definition dialProxy (o : oracle)
  : M (option net_Conn * option bufio_Reader * option error) :=
  emit a_dialProxy ;;
  match dialProxy_result o with
  | returns r => ret r
  | panics v => go_panic v
  end.

(** Modelled from the spec: [redialProxyIfNecessary], which is not in
    [conn_impl_requests.go].  "Before issuing an exchange, the Outbound Worker
    checks whether the previously used relay connection is still usable (not
    closed, not in an error state).  If not, it re-invokes the Transport
    Dialer to obtain a fresh connection and a fresh framing reader over
    it." *)
Definition redialProxyIfNecessary (o : oracle)
    (pc : option net_Conn) (br : option bufio_Reader)
  : M (option net_Conn * option bufio_Reader * option error) :=
  emit (a_checkConn pc (conn_usable o)) ;;
  if conn_usable o then ret (pc, br, None) else dialProxy o.

(** [c.doRequest(proxyConn, bufReader, proxyHost, OP_WRITE, request)]: one
    exchange with the relay. *)
Definition doRequest (o : oracle)
    (pc : option net_Conn) (br : option bufio_Reader)
    (host op : string) (r : request)
  : M (option Response * option error) :=
  emit (a_doRequest pc br host op r) ;;
  match doRequest_result o with
  | returns (rsp, e) => emit (a_doRequestDone rsp e) ;; ret (rsp, e)
  | panics v => emit (a_doRequestFault v) ;; go_panic v
  end.

Definition isClosed (o : oracle) : M bool :=
  emit (a_isClosed (isClosed_result o)) ;; ret (isClosed_result o).

Definition isIdle (o : oracle) : M bool :=
  emit (a_isIdle (isIdle_result o)) ;; ret (isIdle_result o).

(** [mkerror]: [fmt.Errorf] with the format
    [Dest: %s    ProxyHost: %s    %s: %s] applied to [c.Addr], [proxyHost],
    [text] and [err]; the closure reads [proxyHost] when it is called. *)
Definition fmt_Errorf (addr host text : string) (e : error) : error :=
  errorString ("Dest: " +:+ addr +:+ "    ProxyHost: " +:+ host +:+
               "    " +:+ text +:+ ": " +:+ Error e).

Definition mkerror (text : string) (e : error) : M error :=
  addr <- getc Addr ;;
  host <- getf proxyHost ;;
  ret (fmt_Errorf addr host text e).

(** ** [select] in the loop of [processRequests] *)

Inductive selected : Type :=
| sel_request (r : request)
| sel_stop
| sel_timer.

(** A case can be taken when its channel holds a value.  When the preferred
    channel is empty the other one is served, and when both are empty the
    [select] ends with the timer. *)
Definition select_ready (p : preference) (c : Conn) : selected * Conn :=
  match p with
  | prefer_timer => (sel_timer, c)
  | prefer_request =>
      match requestOutCh c, stopRequestCh c with
      | r :: q, _ => (sel_request r, set_requestOutCh q c)
      | [], S n => (sel_stop, set_stopRequestCh n c)
      | [], O => (sel_timer, c)
      end
  | prefer_stop =>
      match stopRequestCh c, requestOutCh c with
      | S n, _ => (sel_stop, set_stopRequestCh n c)
      | O, r :: q => (sel_request r, set_requestOutCh q c)
      | O, [] => (sel_timer, c)
      end
  end.

Definition select_loop (o : oracle) : M selected :=
  c <- getc id ;;
  let (s, c') := select_ready (select_preference o) c in
  modc (fun _ => c') ;;
  match s with
  | sel_request r => emit (a_recvRequest r)
  | sel_stop => emit a_recvStop
  | sel_timer => emit (a_timer (IdleTimeout c))
  end ;;
  ret s.

(** ** [processRequests] *)

(** Lines 17 to 40: the declarations, the two [defer] statements and the
    first dial. *)
Definition processRequests_entry (o : oracle) : M unit :=
  modf (set_resp None) ;;
  rsp <- getf resp ;;
  modf (push_defer (d_cleanupAfterRequests rsp)) ;;
  d <- dialProxy o ;;
  let '(pc, br, e) := d in
  modf (set_proxyConn pc) ;; modf (set_bufReader br) ;; modf (set_err e) ;;
  match e with
  | Some e0 =>
      emit (a_log ("Unable to dial proxy for POSTing request: " +:+ Error e0)) ;;
      go_return
  | None =>
      modf (push_defer d_closeProxyConn) ;;
      modf (set_proxyHost "") ;;
      modf (set_first true)
  end.

(** Lines 42 to 91: one pass through the body of the [for] loop. *)
Definition processRequests_pass (o : oracle) : M unit :=
  closed <- isClosed o ;;
  if closed then go_return else
  s <- select_loop o ;;
  match s with
  | sel_request request =>
      pc <- getf proxyConn ;;
      br <- getf bufReader ;;
      d <- redialProxyIfNecessary o pc br ;;
      let '(pc', br', e) := d in
      modf (set_proxyConn pc') ;; modf (set_bufReader br') ;; modf (set_err e) ;;
      match e with
      | Some e0 =>
          e1 <- mkerror "Unable to redial proxy" e0 ;;
          modf (set_err (Some e1)) ;;
          emit (a_log (Error e1)) ;;
          fst <- getf first ;;
          when fst (emit (a_initialResponse (mkHostWithResponse "" None (Some e1)))) ;;
          go_return
      | None =>
          host <- getf proxyHost ;;
          x <- doRequest o pc' br' host OP_WRITE request ;;
          let '(rsp, e) := x in
          modf (set_resp rsp) ;; modf (set_err e) ;;
          emit (a_requestFinished e) ;;
          match e with
          | Some e0 =>
              e1 <- mkerror "Unable to issue write request" e0 ;;
              modf (set_err (Some e1)) ;;
              emit (a_log (Error e1)) ;;
              fst <- getf first ;;
              when fst (emit (a_initialResponse (mkHostWithResponse "" None (Some e1)))) ;;
              go_return
          | None =>
              fst <- getf first ;;
              match rsp with
              | None => go_panic "invalid memory address or nil pointer dereference"
              | Some r =>
                  if fst then
                    let h := Header_Get (Header r) X_ENPROXY_PROXY_HOST in
                    modf (set_proxyHost h) ;;
                    emit (a_initialResponse (mkHostWithResponse h (Some r) None)) ;;
                    modf (set_first false)
                  else
                    emit (a_bodyClose r)
              end
          end
      end
  | sel_stop => go_return
  | sel_timer =>
      idle <- isIdle o ;;
      if idle then go_return else ret tt
  end.

(** ** [submitRequest] *)

(** The result, the connection afterwards and the actions of the caller.  A
    send on a closed channel is a runtime fault; the deferred [RUnlock] runs
    in every case. *)
Definition submitRequest (r : request) (c : Conn)
  : call bool * Conn * list action :=
  if doneRequesting c then
    (returns false, c, [a_rlock; a_readDoneRequesting true; a_runlock])
  else if requestOutCh_closed c then
    (panics "send on closed channel", c,
     [a_rlock; a_readDoneRequesting false; a_panic "send on closed channel";
      a_runlock])
  else
    (returns true, set_requestOutCh (requestOutCh c ++ [r]) c,
     [a_rlock; a_readDoneRequesting false; a_sendRequest r; a_runlock]).

(** The calls of [submitRequest] made one after the other by other
    goroutines. *)
Fixpoint submit_each (rs : list request) (c : Conn) : Conn * list action :=
  match rs with
  | [] => (c, [])
  | r :: rs' =>
      let '(_, c1, out) := submitRequest r c in
      let (c2, out') := submit_each rs' c1 in
      (c2, out ++ out')
  end.

(** ** [cleanupAfterRequests] *)

Inductive cleanup_selected : Type :=
| cs_request (r : request)
| cs_stop
| cs_default.

(** The [select] of the cleanup loop has a [default] case: it is taken when
    neither channel holds a value.  When both do, the head of [prefs] says
    whether the request is taken. *)
Definition cleanup_select (prefs : list bool) (c : Conn)
  : cleanup_selected * list bool * Conn :=
  match requestOutCh c, stopRequestCh c with
  | [], O => (cs_default, prefs, c)
  | r :: q, O => (cs_request r, prefs, set_requestOutCh q c)
  | [], S n => (cs_stop, prefs, set_stopRequestCh n c)
  | r :: q, S n =>
      match prefs with
      | false :: prefs' => (cs_stop, prefs', set_stopRequestCh n c)
      | true :: prefs' => (cs_request r, prefs', set_requestOutCh q c)
      | [] => (cs_request r, [], set_requestOutCh q c)
      end
  end.

(** Lines 111 to 131.  Each pass of the loop either takes a value from one of
    the two channels or leaves through [default]; [fuel] bounds the number of
    passes.  The [default] case is taken when both channels are seen empty;
    the calls of [submitRequest] for the requests [late] run before the
    cleanup gets the lock, and read [doneRequesting] before it is set. *)
Fixpoint cleanup_loop (fuel : nat) (prefs : list bool) (late : list request)
    (rsp : option Response) (panicked : option string) (c : Conn)
  : Conn * list action :=
  match fuel with
  | O => (c, [])
  | S fuel' =>
      match cleanup_select prefs c with
      | (cs_request r, prefs', c') =>
          let sig := match panicked with
                     | Some _ => io_ErrUnexpectedEOF
                     | None => io_EOF
                     end in
          let (c'', out) := cleanup_loop fuel' prefs' late rsp panicked c' in
          (c'', a_recvRequest r :: a_requestFinished (Some sig) :: out)
      | (cs_stop, prefs', c') =>
          let (c'', out) := cleanup_loop fuel' prefs' late rsp panicked c' in
          (c'', a_recvStop :: out)
      | (cs_default, _, c') =>
          let (c'', sends) := submit_each late c' in
          (close_requestOutCh (set_doneRequesting true c''),
           sends ++
           [a_lock; a_setDoneRequesting; a_unlock; a_closeRequestOutCh] ++
           match rsp with
           | Some r => [a_bodyClose r]
           | None => []
           end)
      end
  end.

(** [panicked] is what [recover()] returns.  The loop runs one pass for each
    value held by the two channels and one more for [default]. *)
Definition cleanupAfterRequests (prefs : list bool) (late : list request)
    (rsp : option Response) (panicked : option string) (c : Conn)
  : Conn * list action :=
  let (c', out) :=
    cleanup_loop (S (length (requestOutCh c) + stopRequestCh c))
                 prefs late rsp panicked c in
  (c', a_cleanup rsp panicked :: out).

(** ** Leaving [processRequests] *)

(** The deferred calls run last in, first out.  [recover()] in
    [cleanupAfterRequests] ends the fault, so the calls after it see none. *)
Fixpoint run_defers (ds : list deferred) (prefs : list bool)
    (late : list request)
    (panicked : option string) (c : Conn) (f : frame) : Conn * list action :=
  match ds with
  | [] => (c, [])
  | d_closeProxyConn :: ds' =>
      let out := match proxyConn f with
                 | Some pc => [a_proxyConnClose pc]
                 | None => []
                 end in
      let (c', out') := run_defers ds' prefs late panicked c f in
      (c', out ++ out')
  | d_cleanupAfterRequests rsp :: ds' =>
      let (c1, out) := cleanupAfterRequests prefs late rsp panicked c in
      let (c2, out') := run_defers ds' prefs late None c1 f in
      (c2, out ++ out')
  end.

(** ** The system *)

Inductive status : Type :=
| not_started
| in_loop (f : frame)
| exited.

Record system : Type := mkSystem {
  conn : Conn;
  worker : status;
  trace : list action
}.

(** Leaving the function, with the fault in flight if there is one. *)
Definition leave (o : oracle) (panicked : option string) (w : world)
  : Conn * status * list action :=
  let (c', out) := run_defers (defers (w_frame w)) (cleanup_preference o)
                              (late_submits o) panicked (w_conn w) (w_frame w) in
  (c', exited, w_out w ++ out).

(** The end of a step of the worker: back at the head of the loop, or out of
    the function through its deferred calls. *)
Definition finish (o : oracle) (r : flow unit * world)
  : Conn * status * list action :=
  let (fl, w) := r in
  match fl with
  | next _ => (w_conn w, in_loop (w_frame w), w_out w)
  | returning => leave o None w
  | panicking v => leave o (Some v) w
  end.

(** One step of the goroutine running [processRequests]: the entry of the
    function, then one pass of the loop per step. *)
Definition worker_step (o : oracle) (c : Conn) (st : status)
  : Conn * status * list action :=
  match st with
  | not_started => finish o (processRequests_entry o (mkWorld c frame0 []))
  | in_loop f => finish o (processRequests_pass o (mkWorld c f []))
  | exited => (c, exited, [])
  end.

(** What happens to a connection: another goroutine submits a request or
    signals a stop, or the worker runs a step. *)
Inductive event : Type :=
| ev_submit (r : request)
| ev_stop
| ev_worker (o : oracle).

Definition step (e : event) (s : system) : system :=
  match e with
  | ev_submit r =>
      let '(_, c', out) := submitRequest r (conn s) in
      mkSystem c' (worker s) (trace s ++ out)
  | ev_stop =>
      mkSystem (set_stopRequestCh (S (stopRequestCh (conn s))) (conn s))
               (worker s) (trace s ++ [a_sendStop])
  | ev_worker o =>
      let '(c', st', out) := worker_step o (conn s) (worker s) in
      mkSystem c' st' (trace s ++ out)
  end.

Fixpoint run (es : list event) (s : system) : system :=
  match es with
  | [] => s
  | e :: es' => run es' (step e s)
  end.

(** The session when [Dial] has made the channels and not yet started the
    worker. *)
Definition boot (addr : string) (idle : Z) : system :=
  mkSystem (newConn addr idle) not_started [].

(** ** Reading a trace *)

Fixpoint count (f : action -> bool) (t : list action) : nat :=
  match t with
  | [] => 0
  | a :: t' => (if f a then 1 else 0) + count f t'
  end.

Definition is_doRequest (a : action) : bool :=
  match a with a_doRequest _ _ _ _ _ => true | _ => false end.
Definition is_doRequestDone (a : action) : bool :=
  match a with a_doRequestDone _ _ => true | _ => false end.
Definition is_doRequestFault (a : action) : bool :=
  match a with a_doRequestFault _ => true | _ => false end.
Definition is_requestFinished (a : action) : bool :=
  match a with a_requestFinished _ => true | _ => false end.
Definition is_setDoneRequesting (a : action) : bool :=
  match a with a_setDoneRequesting => true | _ => false end.
Definition is_closeRequestOutCh (a : action) : bool :=
  match a with a_closeRequestOutCh => true | _ => false end.
Definition is_lock (a : action) : bool :=
  match a with a_lock => true | _ => false end.
Definition is_unlock (a : action) : bool :=
  match a with a_unlock => true | _ => false end.
Definition is_rlock (a : action) : bool :=
  match a with a_rlock => true | _ => false end.
Definition is_runlock (a : action) : bool :=
  match a with a_runlock => true | _ => false end.

(** Exchanges issued, exchanges that returned, exchanges ended by a fault,
    acknowledgments sent. *)
Definition begun : list action -> nat := count is_doRequest.
Definition returned : list action -> nat := count is_doRequestDone.
Definition faulted : list action -> nat := count is_doRequestFault.
Definition acked : list action -> nat := count is_requestFinished.

(** The requests sent into [requestOutCh], taken out of it, and carried by
    an exchange, each in the order of the trace. *)
Definition req_sent (a : action) : option request :=
  match a with a_sendRequest r => Some r | _ => None end.
Definition req_received (a : action) : option request :=
  match a with a_recvRequest r => Some r | _ => None end.
Definition req_exchanged (a : action) : option request :=
  match a with a_doRequest _ _ _ _ r => Some r | _ => None end.

Definition enqueued : list action -> list request := omap req_sent.
Definition received : list action -> list request := omap req_received.
Definition exchanged : list action -> list request := omap req_exchanged.

(** The values sent on [requestFinishedCh] and on [initialResponseCh]. *)
Definition ack_of (a : action) : option (option error) :=
  match a with a_requestFinished e => Some e | _ => None end.
Definition handoff_of (a : action) : option hostWithResponse :=
  match a with a_initialResponse h => Some h | _ => None end.

Definition acks : list action -> list (option error) := omap ack_of.
Definition handoffs : list action -> list hostWithResponse := omap handoff_of.

(** The pin names carried by the exchanges. *)
Definition host_of (a : action) : option string :=
  match a with a_doRequest _ _ h _ _ => Some h | _ => None end.

Definition hosts : list action -> list string := omap host_of.

(** [always ok t]: every action of [t] is allowed by [ok] after the actions
    that come before it. *)
Fixpoint follows (ok : list action -> action -> Prop) (h t : list action) : Prop :=
  match t with
  | [] => True
  | a :: t' => ok h a /\ follows ok (h ++ [a]) t'
  end.

Definition always (ok : list action -> action -> Prop) (t : list action) : Prop :=
  follows ok [] t.

(** The acknowledgment a drained item gets. *)
Definition drain_signal (panicked : option string) : error :=
  match panicked with
  | Some _ => io_ErrUnexpectedEOF
  | None => io_EOF
  end.

(** ** The dial entry point *)



(** ** Lemmas on traces *)

Lemma count_app f t d : count f (t ++ d) = count f t + count f d.
Proof. induction t as [|a t IH]; simpl; [done | rewrite IH; lia]. Qed.

Lemma count_zero f t : Forall (fun a => f a = false) t -> count f t = 0.
Proof. induction 1 as [|a t Ha _ IH]; simpl; [done | by rewrite Ha, IH]. Qed.

Lemma follows_app ok h t d :
  follows ok h (t ++ d) <-> follows ok h t /\ follows ok (h ++ t) d.
Proof.
  revert h. induction t as [|a t IH]; intros h; simpl.
  - rewrite app_nil_r. tauto.
  - rewrite IH, <- app_assoc. simpl. tauto.
Qed.

Lemma follows_spec ok h t :
  follows ok h t <-> forall p a q, t = p ++ a :: q -> ok (h ++ p) a.
Proof.
  revert h. induction t as [|b t IH]; intros h; simpl.
  - split; [intros _ [|??] ?? ?; discriminate | done].
  - rewrite IH. split.
    + intros [Hb Ht] [|c p] a q Heq; simplify_eq/=.
      * by rewrite app_nil_r.
      * specialize (Ht p a q eq_refl). by rewrite <- app_assoc in Ht.
    + intros H. split.
      * specialize (H [] b t eq_refl). by rewrite app_nil_r in H.
      * intros p a q ->. rewrite <- app_assoc. by apply (H (b :: p) a q).
Qed.

Lemma always_spec ok t :
  always ok t <-> forall p a q, t = p ++ a :: q -> ok p a.
Proof. unfold always. by rewrite follows_spec. Qed.

Lemma follows_free ok h t :
  Forall (fun a => forall p, ok p a) t -> follows ok h t.
Proof.
  intros H. revert h. induction H as [|a t Ha _ IH]; intros h; simpl; auto.
Qed.

(** ** What the cleanup does *)

(** [drains sig q n d]: [d] takes the requests [q] in order, each followed at
    once by the acknowledgment [sig], and takes [n] stop signals in
    between. *)
Inductive drains (sig : error) : list request -> nat -> list action -> Prop :=
| drains_done : drains sig [] 0 []
| drains_request r q n d :
    drains sig q n d ->
    drains sig (r :: q) n (a_recvRequest r :: a_requestFinished (Some sig) :: d)
| drains_stop q n d :
    drains sig q n d ->
    drains sig q (S n) (a_recvStop :: d).

(** The actions of the [default] case. *)
Definition shutdown (rsp : option Response) : list action :=
  [a_lock; a_setDoneRequesting; a_unlock; a_closeRequestOutCh] ++
  match rsp with
  | Some r => [a_bodyClose r]
  | None => []
  end.

(** The actions of the calls of [submitRequest] that find the flag unset. *)
Fixpoint late_sends (l : list request) : list action :=
  match l with
  | [] => []
  | r :: l' =>
      a_rlock :: a_readDoneRequesting false :: a_sendRequest r :: a_runlock ::
      late_sends l'
  end.

(** The connection when the cleanup has returned: the requests submitted in
    its window are in the closed channel. *)
Definition shut (late : list request) (c : Conn) : Conn :=
  mkConn (Addr c) (IdleTimeout c) late true 0 true.

Lemma submit_each_open late c :
  doneRequesting c = false -> requestOutCh_closed c = false ->
  submit_each late c =
    (set_requestOutCh (requestOutCh c ++ late) c, late_sends late).
Proof.
  revert c. induction late as [|r late IH]; intros c Hd Hc; simpl.
  - unfold set_requestOutCh. rewrite app_nil_r. by destruct c.
  - unfold submitRequest. rewrite Hd, Hc.
    rewrite IH by done. unfold set_requestOutCh. simpl.
    by rewrite <- app_assoc.
Qed.

Lemma cleanup_loop_drains fuel prefs late rsp pk c :
  doneRequesting c = false -> requestOutCh_closed c = false ->
  length (requestOutCh c) + stopRequestCh c < fuel ->
  exists d,
    cleanup_loop fuel prefs late rsp pk c =
      (shut late c, d ++ late_sends late ++ shutdown rsp) /\
    drains (drain_signal pk) (requestOutCh c) (stopRequestCh c) d.
Proof.
  revert prefs c. induction fuel as [|fuel IH]; intros prefs c Hdn Hcl Hlt; [lia|].
  destruct c as [addr idle q cl n dn]. simpl in *. subst cl dn.
  unfold cleanup_select; simpl.
  destruct q as [|r q], n as [|n]; [| | |destruct prefs as [|[] prefs]];
    unfold set_stopRequestCh, set_requestOutCh; simpl in *.
  - exists []. rewrite submit_each_open by done. split; [done | constructor].
  - destruct (IH prefs (mkConn addr idle [] false n false)) as (d & -> & Hd);
      [done | done | simpl; lia|].
    exists (a_recvStop :: d). split; [done | by constructor].
  - destruct (IH prefs (mkConn addr idle q false 0 false)) as (d & -> & Hd);
      [done | done | simpl; lia|].
    exists (a_recvRequest r :: a_requestFinished (Some (drain_signal pk)) :: d).
    split; [done | by constructor].
  - destruct (IH [] (mkConn addr idle q false (S n) false)) as (d & -> & Hd);
      [done | done | simpl; lia|].
    exists (a_recvRequest r :: a_requestFinished (Some (drain_signal pk)) :: d).
    split; [done | by constructor].
  - destruct (IH prefs (mkConn addr idle q false (S n) false)) as (d & -> & Hd);
      [done | done | simpl; lia|].
    exists (a_recvRequest r :: a_requestFinished (Some (drain_signal pk)) :: d).
    split; [done | by constructor].
  - destruct (IH prefs (mkConn addr idle (r :: q) false n false)) as (d & -> & Hd);
      [done | done | simpl; lia|].
    exists (a_recvStop :: d). split; [done | by constructor].
Qed.

Lemma cleanupAfterRequests_drains prefs late rsp pk c :
  doneRequesting c = false -> requestOutCh_closed c = false ->
  exists d,
    cleanupAfterRequests prefs late rsp pk c =
      (shut late c, a_cleanup rsp pk :: d ++ late_sends late ++ shutdown rsp) /\
    drains (drain_signal pk) (requestOutCh c) (stopRequestCh c) d.
Proof.
  intros Hdn Hcl. unfold cleanupAfterRequests.
  destruct (cleanup_loop_drains (S (length (requestOutCh c) + stopRequestCh c))
              prefs late rsp pk c Hdn Hcl) as (d & -> & Hd); [lia|].
  by exists d.
Qed.

Lemma drains_received sig q n d : drains sig q n d -> received d = q.
Proof. unfold received. induction 1; simpl; [done | by f_equal | done]. Qed.

Lemma drains_acks sig q n d :
  drains sig q n d -> acks d = (fun _ => Some sig) <$> q.
Proof. unfold acks. induction 1; simpl; [done | by f_equal | done]. Qed.

Lemma drains_acked sig q n d : drains sig q n d -> acked d = length q.
Proof. unfold acked. induction 1; simpl; [done | by f_equal | done]. Qed.

(** The actions a drain is made of. *)
Definition is_drain (a : action) : Prop :=
  match a with
  | a_recvRequest _ | a_requestFinished _ | a_recvStop => True
  | _ => False
  end.

Lemma drains_Forall sig q n d : drains sig q n d -> Forall is_drain d.
Proof. induction 1; repeat constructor; done. Qed.

(** ** The paths through a step of the worker *)

Definition std_defers : list deferred :=
  [d_closeProxyConn; d_cleanupAfterRequests None].

(** What the deferred closure does. *)
Definition closing (f : frame) : list action :=
  match proxyConn f with
  | Some pc => [a_proxyConnClose pc]
  | None => []
  end.

(** What never changes in a connection: its address and its idle duration,
    shown on a connection with both channels empty and closed. *)
Definition emptied (c : Conn) : Conn :=
  mkConn (Addr c) (IdleTimeout c) [] true 0 true.

(** The actions of the two deferred calls, [d] being the drain and [late]
    the requests submitted in the window of the cleanup. *)
Definition exit_trace (late : list request) (f : frame) (pk : option string)
    (d : list action) : list action :=
  closing f ++ a_cleanup None pk :: d ++ late_sends late ++ shutdown None.

(** The result of [redialProxyIfNecessary] and its actions. *)
Definition redial (o : oracle) (f : frame)
  : call (option net_Conn * option bufio_Reader * option error) :=
  if conn_usable o then returns (proxyConn f, bufReader f, None)
  else dialProxy_result o.

Definition redial_trace (o : oracle) (f : frame) : list action :=
  a_checkConn (proxyConn f) (conn_usable o) ::
  (if conn_usable o then [] else [a_dialProxy]).

(** The handoff of an error, made on the first exchange only. *)
Definition error_handoff (f : frame) (e : error) : list action :=
  if first f then [a_initialResponse (mkHostWithResponse "" None (Some e))]
  else [].

Definition nil_dereference : string :=
  "invalid memory address or nil pointer dereference".

(** The frame with the results of the redial, then of the exchange. *)
Definition redialed (pc : option net_Conn) (br : option bufio_Reader)
    (e : option error) (f : frame) : frame :=
  set_err e (set_bufReader br (set_proxyConn pc f)).

Definition answered (rsp : option Response) (e : option error) (f : frame) : frame :=
  set_err e (set_resp rsp f).

Definition drained (pk : option string) (c : Conn) (d : list action) : Prop :=
  drains (drain_signal pk) (requestOutCh c) (stopRequestCh c) d.

(** [pass o c f c' st out]: one pass of the loop, from connection [c] and
    frame [f], under the answers [o]. *)
Inductive pass (o : oracle) (c : Conn) (f : frame)
  : Conn -> status -> list action -> Prop :=
| pass_closed d :
    isClosed_result o = true ->
    drained None c d ->
    pass o c f (shut (late_submits o) c) exited
         (a_isClosed true :: exit_trace (late_submits o) f None d)
| pass_stop c1 d :
    isClosed_result o = false ->
    select_ready (select_preference o) c = (sel_stop, c1) ->
    drained None c1 d ->
    pass o c f (shut (late_submits o) c1) exited
         ([a_isClosed false; a_recvStop] ++ exit_trace (late_submits o) f None d)
| pass_idle c1 d :
    isClosed_result o = false ->
    select_ready (select_preference o) c = (sel_timer, c1) ->
    isIdle_result o = true ->
    drained None c1 d ->
    pass o c f (shut (late_submits o) c1) exited
         ([a_isClosed false; a_timer (IdleTimeout c); a_isIdle true] ++
          exit_trace (late_submits o) f None d)
| pass_busy c1 :
    isClosed_result o = false ->
    select_ready (select_preference o) c = (sel_timer, c1) ->
    isIdle_result o = false ->
    pass o c f c1 (in_loop f)
         [a_isClosed false; a_timer (IdleTimeout c); a_isIdle false]
| pass_redial_fault r c1 v d :
    isClosed_result o = false ->
    select_ready (select_preference o) c = (sel_request r, c1) ->
    redial o f = panics v ->
    drained (Some v) c1 d ->
    pass o c f (shut (late_submits o) c1) exited
         ([a_isClosed false; a_recvRequest r] ++ redial_trace o f ++
          [a_panic v] ++ exit_trace (late_submits o) f (Some v) d)
| pass_redial_failed r c1 pc br e d :
    isClosed_result o = false ->
    select_ready (select_preference o) c = (sel_request r, c1) ->
    redial o f = returns (pc, br, Some e) ->
    drained None c1 d ->
    let e1 := fmt_Errorf (Addr c1) (proxyHost f) "Unable to redial proxy" e in
    pass o c f (shut (late_submits o) c1) exited
         ([a_isClosed false; a_recvRequest r] ++ redial_trace o f ++
          [a_log (Error e1)] ++ error_handoff f e1 ++
          exit_trace (late_submits o) (redialed pc br (Some e1) f) None d)
| pass_exchange_fault r c1 pc br v d :
    isClosed_result o = false ->
    select_ready (select_preference o) c = (sel_request r, c1) ->
    redial o f = returns (pc, br, None) ->
    doRequest_result o = panics v ->
    drained (Some v) c1 d ->
    pass o c f (shut (late_submits o) c1) exited
         ([a_isClosed false; a_recvRequest r] ++ redial_trace o f ++
          [a_doRequest pc br (proxyHost f) OP_WRITE r;
           a_doRequestFault v; a_panic v] ++
          exit_trace (late_submits o) (redialed pc br None f) (Some v) d)
| pass_exchange_failed r c1 pc br rsp e d :
    isClosed_result o = false ->
    select_ready (select_preference o) c = (sel_request r, c1) ->
    redial o f = returns (pc, br, None) ->
    doRequest_result o = returns (rsp, Some e) ->
    drained None c1 d ->
    let e1 := fmt_Errorf (Addr c1) (proxyHost f)
                         "Unable to issue write request" e in
    pass o c f (shut (late_submits o) c1) exited
         ([a_isClosed false; a_recvRequest r] ++ redial_trace o f ++
          [a_doRequest pc br (proxyHost f) OP_WRITE r;
           a_doRequestDone rsp (Some e); a_requestFinished (Some e);
           a_log (Error e1)] ++ error_handoff f e1 ++
          exit_trace (late_submits o) (answered rsp (Some e1) (redialed pc br None f)) None d)
| pass_exchange_nil r c1 pc br d :
    isClosed_result o = false ->
    select_ready (select_preference o) c = (sel_request r, c1) ->
    redial o f = returns (pc, br, None) ->
    doRequest_result o = returns (None, None) ->
    drained (Some nil_dereference) c1 d ->
    pass o c f (shut (late_submits o) c1) exited
         ([a_isClosed false; a_recvRequest r] ++ redial_trace o f ++
          [a_doRequest pc br (proxyHost f) OP_WRITE r;
           a_doRequestDone None None; a_requestFinished None;
           a_panic nil_dereference] ++
          exit_trace (late_submits o) (answered None None (redialed pc br None f))
                     (Some nil_dereference) d)
| pass_first r c1 pc br rsp :
    isClosed_result o = false ->
    select_ready (select_preference o) c = (sel_request r, c1) ->
    redial o f = returns (pc, br, None) ->
    doRequest_result o = returns (Some rsp, None) ->
    first f = true ->
    let pin := Header_Get (Header rsp) X_ENPROXY_PROXY_HOST in
    pass o c f c1
         (in_loop (set_first false (set_proxyHost pin
            (answered (Some rsp) None (redialed pc br None f)))))
         ([a_isClosed false; a_recvRequest r] ++ redial_trace o f ++
          [a_doRequest pc br (proxyHost f) OP_WRITE r;
           a_doRequestDone (Some rsp) None; a_requestFinished None;
           a_initialResponse (mkHostWithResponse pin (Some rsp) None)])
| pass_next r c1 pc br rsp :
    isClosed_result o = false ->
    select_ready (select_preference o) c = (sel_request r, c1) ->
    redial o f = returns (pc, br, None) ->
    doRequest_result o = returns (Some rsp, None) ->
    first f = false ->
    pass o c f c1
         (in_loop (answered (Some rsp) None (redialed pc br None f)))
         ([a_isClosed false; a_recvRequest r] ++ redial_trace o f ++
          [a_doRequest pc br (proxyHost f) OP_WRITE r;
           a_doRequestDone (Some rsp) None; a_requestFinished None;
           a_bodyClose rsp]).

Lemma leave_std o pk c f out :
  defers f = std_defers ->
  doneRequesting c = false -> requestOutCh_closed c = false ->
  exists d,
    leave o pk (mkWorld c f out) =
      (shut (late_submits o) c, exited,
       out ++ exit_trace (late_submits o) f pk d) /\
    drained pk c d.
Proof.
  intros Hd Hdn Hcl. unfold leave. simpl. rewrite Hd. simpl.
  destruct (cleanupAfterRequests_drains (cleanup_preference o) (late_submits o)
              None pk c Hdn Hcl) as (d & -> & Hdr).
  exists d. split; [|done]. unfold exit_trace, closing.
  f_equal. f_equal. by rewrite app_nil_r.
Qed.

(** [select] leaves the flag and the state of the channel as they are. *)
Lemma select_ready_flags p c s c1 :
  select_ready p c = (s, c1) ->
  doneRequesting c1 = doneRequesting c /\
  requestOutCh_closed c1 = requestOutCh_closed c.
Proof.
  destruct c as [addr idle q cl n dn], p; simpl;
    destruct q as [|r0 q], n as [|n]; simpl; by intros [= <- <-].
Qed.

Ltac go_unfold :=
  cbv [worker_step finish processRequests_entry processRequests_pass
       redialProxyIfNecessary dialProxy doRequest isClosed isIdle mkerror
       select_loop bind ret emit go_return go_panic getf modf getc modc when
       w_conn w_frame w_out id].

(** Splits on the next answer of the oracle that the goal is stuck on. *)
Ltac go_case :=
  match goal with
  | |- context [select_ready ?p ?c] =>
      let s := fresh "s" in let c1 := fresh "c1" in let Hs := fresh "Hsel" in
      destruct (select_ready p c) as [s c1] eqn:Hs; destruct s
  | |- context [if ?b then _ else _] => is_var b; destruct b
  | |- context [match ?x with _ => _ end] => is_var x; destruct x
  end.

Ltac go_leave Hd :=
  match goal with
  | |- context [leave ?o ?pk (mkWorld ?c ?f ?out)] =>
      let d := fresh "d" in let Hdr := fresh "Hdr" in
      destruct (leave_std o pk c f out Hd) as (d & -> & Hdr);
      [congruence | congruence |]
  end.

Lemma pass_eq o c f c1 st1 out1 c2 st2 out2 :
  pass o c f c1 st1 out1 -> c1 = c2 -> st1 = st2 -> out1 = out2 ->
  pass o c f c2 st2 out2.
Proof. by intros H <- <- <-. Qed.

Lemma worker_step_pass o c f c' st out :
  defers f = std_defers ->
  doneRequesting c = false -> requestOutCh_closed c = false ->
  worker_step o c (in_loop f) = (c', st, out) ->
  pass o c f c' st out.
Proof.
  intros Hd Hdn Hcl.
  destruct o as [dp cl pref cu dr idle prefs late], f as [rsp pc br e host fst ds].
  simpl in Hd. subst ds. go_unfold. simpl.
  repeat (go_case; simpl).
  all: try match goal with
           | H : select_ready _ _ = _ |- _ =>
               destruct (select_ready_flags _ _ _ _ H) as [? ?]
           end.
  all: try go_leave (eq_refl std_defers).
  all: intros [= <- <- <-].
  all: eapply pass_eq;
    [econstructor; unfold redial; simpl; first [reflexivity | eassumption]
    | reflexivity..].
Qed.

(** The entry of the function, up to the loop. *)
Inductive entry (o : oracle) (c : Conn) : Conn -> status -> list action -> Prop :=
| entry_fault v d :
    dialProxy_result o = panics v ->
    drained (Some v) c d ->
    entry o c (shut (late_submits o) c) exited
          ([a_dialProxy; a_panic v; a_cleanup None (Some v)] ++ d ++ late_sends (late_submits o) ++ shutdown None)
| entry_failed pc br e d :
    dialProxy_result o = returns (pc, br, Some e) ->
    drained None c d ->
    entry o c (shut (late_submits o) c) exited
          ([a_dialProxy;
            a_log ("Unable to dial proxy for POSTing request: " +:+ Error e);
            a_cleanup None None] ++ d ++ late_sends (late_submits o) ++ shutdown None)
| entry_dialed pc br :
    dialProxy_result o = returns (pc, br, None) ->
    entry o c c (in_loop (mkFrame None pc br None "" true std_defers))
          [a_dialProxy].

Lemma leave_entry o pk c f out :
  defers f = [d_cleanupAfterRequests None] ->
  doneRequesting c = false -> requestOutCh_closed c = false ->
  exists d,
    leave o pk (mkWorld c f out) =
      (shut (late_submits o) c, exited,
       out ++ a_cleanup None pk :: d ++ late_sends (late_submits o) ++
       shutdown None) /\
    drained pk c d.
Proof.
  intros Hd Hdn Hcl. unfold leave. simpl. rewrite Hd. simpl.
  destruct (cleanupAfterRequests_drains (cleanup_preference o) (late_submits o)
              None pk c Hdn Hcl) as (d & -> & Hdr).
  exists d. split; [|done].
  f_equal. f_equal. by rewrite app_nil_r.
Qed.

Lemma worker_step_entry o c c' st out :
  doneRequesting c = false -> requestOutCh_closed c = false ->
  worker_step o c not_started = (c', st, out) ->
  entry o c c' st out.
Proof.
  intros Hdn Hcl.
  destruct o as [dp cl pref cu dr idle prefs late].
  go_unfold. simpl.
  destruct dp as [[[pc br] [e|]]|v]; simpl.
  - match goal with
    | |- context [leave ?o ?pk (mkWorld ?c ?f ?out)] =>
        destruct (leave_entry o pk c f out eq_refl Hdn Hcl) as (d & -> & Hdr)
    end.
    intros [= <- <- <-].
    match goal with
    | |- entry ?o _ _ _ _ => exact (entry_failed o c pc br e d eq_refl Hdr)
    end.
  - intros [= <- <- <-]. by apply (entry_dialed _ _ pc br).
  - match goal with
    | |- context [leave ?o ?pk (mkWorld ?c ?f ?out)] =>
        destruct (leave_entry o pk c f out eq_refl Hdn Hcl) as (d & -> & Hdr)
    end.
    intros [= <- <- <-].
    match goal with
    | |- entry ?o _ _ _ _ => exact (entry_fault o c v d eq_refl Hdr)
    end.
Qed.

(** What [select] does to the connection. *)
Lemma select_ready_request p c r c1 :
  select_ready p c = (sel_request r, c1) ->
  requestOutCh c = r :: requestOutCh c1 /\ c1 = set_requestOutCh (requestOutCh c1) c.
Proof.
  destruct c as [addr idle q cl n dn], p; simpl;
    destruct q as [|r0 q], n as [|n]; simpl; intros [= <- <-]; done.
Qed.

Lemma select_ready_stop p c c1 :
  select_ready p c = (sel_stop, c1) ->
  exists n, stopRequestCh c = S n /\ c1 = set_stopRequestCh n c.
Proof.
  destruct c as [addr idle q cl n dn], p; simpl;
    destruct q as [|r0 q], n as [|n]; simpl; intros [= <-]; by eexists.
Qed.

Lemma select_ready_timer p c c1 : select_ready p c = (sel_timer, c1) -> c1 = c.
Proof.
  destruct c as [addr idle q cl n dn], p; simpl;
    destruct q as [|r0 q], n as [|n]; simpl; by intros [= <-].
Qed.

Lemma run_app es1 es2 s : run (es1 ++ es2) s = run es2 (run es1 s).
Proof. revert s. induction es1 as [|e es1 IH]; intros s; simpl; [done | apply IH]. Qed.

Lemma run_snoc es e s : run (es ++ [e]) s = step e (run es s).
Proof. by rewrite run_app. Qed.

(** Induction over the states a session goes through. *)
Lemma run_ind (P : system -> Prop) addr idle :
  P (boot addr idle) ->
  (forall s e, P s -> P (step e s)) ->
  forall es, P (run es (boot addr idle)).
Proof.
  intros H0 Hstep es. induction es as [|e es IH] using rev_ind; [done|].
  rewrite run_snoc. by apply Hstep.
Qed.

(** ** Reachable states are well formed *)

(** The worker in its loop has both deferred calls pending; the connection
    refuses requests exactly when the worker has left. *)
Definition wf (s : system) : Prop :=
  match worker s with
  | not_started =>
      doneRequesting (conn s) = false /\ requestOutCh_closed (conn s) = false
  | in_loop f =>
      defers f = std_defers /\
      doneRequesting (conn s) = false /\ requestOutCh_closed (conn s) = false
  | exited =>
      doneRequesting (conn s) = true /\ requestOutCh_closed (conn s) = true
  end.

(** Finds the state of the flag and of the channel among the hypotheses. *)
Ltac wf_flag :=
  first
    [ assumption
    | tauto
    | unfold wf in *;
      match goal with
      | Hw : worker ?s = _, H : context [match worker ?s with _ => _ end] |- _ =>
          rewrite Hw in H
      end; tauto ].

Lemma step_submit_open r s :
  doneRequesting (conn s) = false -> requestOutCh_closed (conn s) = false ->
  step (ev_submit r) s =
    mkSystem (set_requestOutCh (requestOutCh (conn s) ++ [r]) (conn s))
             (worker s)
             (trace s ++ [a_rlock; a_readDoneRequesting false; a_sendRequest r;
                          a_runlock]).
Proof. intros Hd Hc. unfold step, submitRequest. by rewrite Hd, Hc. Qed.

Lemma step_submit_done r s :
  doneRequesting (conn s) = true ->
  step (ev_submit r) s =
    mkSystem (conn s) (worker s)
             (trace s ++ [a_rlock; a_readDoneRequesting true; a_runlock]).
Proof. intros Hd. unfold step, submitRequest. by rewrite Hd. Qed.

(** The three kinds of step of the worker. *)
Lemma step_worker_not_started o s :
  worker s = not_started ->
  doneRequesting (conn s) = false -> requestOutCh_closed (conn s) = false ->
  exists c' st out,
    entry o (conn s) c' st out /\
    step (ev_worker o) s = mkSystem c' st (trace s ++ out).
Proof.
  intros Hw Hdn Hcl. unfold step. rewrite Hw.
  destruct (worker_step o (conn s) not_started) as [[c' st] out] eqn:Hs.
  exists c', st, out. split; [by apply worker_step_entry | done].
Qed.

Lemma step_worker_in_loop o s f :
  worker s = in_loop f -> defers f = std_defers ->
  doneRequesting (conn s) = false -> requestOutCh_closed (conn s) = false ->
  exists c' st out,
    pass o (conn s) f c' st out /\
    step (ev_worker o) s = mkSystem c' st (trace s ++ out).
Proof.
  intros Hw Hd Hdn Hcl. unfold step. rewrite Hw.
  destruct (worker_step o (conn s) (in_loop f)) as [[c' st] out] eqn:Hs.
  exists c', st, out. split; [by apply worker_step_pass | done].
Qed.

Lemma step_worker_exited o s :
  worker s = exited ->
  step (ev_worker o) s = mkSystem (conn s) exited (trace s ++ []).
Proof. intros Hw. unfold step. by rewrite Hw. Qed.

Lemma wf_boot addr idle : wf (boot addr idle).
Proof. done. Qed.

Lemma wf_step s e : wf s -> wf (step e s).
Proof.
  unfold wf. intros H. destruct e as [r| |o].
  - destruct (worker s) eqn:Hw.
    + destruct H as [Hd Hc]. rewrite (step_submit_open _ _ Hd Hc). simpl. by rewrite Hw.
    + destruct H as (? & Hd & Hc). rewrite (step_submit_open _ _ Hd Hc). simpl. by rewrite Hw.
    + destruct H as (Hd & ?). rewrite (step_submit_done _ _ Hd). simpl. by rewrite Hw.
  - simpl. destruct (worker s); simpl; done.
  - destruct (worker s) as [|f|] eqn:Hw.
    + destruct (step_worker_not_started o s Hw ltac:(wf_flag) ltac:(wf_flag)) as (c' & st & out & He & ->).
      destruct H. inversion He; subst; simpl; done.
    + destruct H as (Hd & ? & ?).
      destruct (step_worker_in_loop o s f Hw Hd ltac:(wf_flag) ltac:(wf_flag)) as (c' & st & out & Hp & ->).
      inversion Hp; subst; simpl; try done.
      all: match goal with
           | H : select_ready _ _ = (sel_timer, _) |- _ =>
               apply select_ready_timer in H; by subst
           | H : select_ready _ _ = (sel_request _, _) |- _ =>
               apply select_ready_request in H; destruct H as [_ ->]; by simpl
           end.
    + rewrite (step_worker_exited o s Hw). simpl. done.
Qed.

Lemma wf_run es addr idle : wf (run es (boot addr idle)).
Proof. apply run_ind; [apply wf_boot | intros; by apply wf_step]. Qed.

(** ** Exchanges are sequential *)

(** What must hold of the actions [p] done so far when [a] is done. *)
Definition seq_ok (p : list action) (a : action) : Prop :=
  match a with
  | a_doRequest _ _ _ _ r =>
      returned p = begun p /\ faulted p = 0 /\ acked p = begun p /\
      received p = exchanged p ++ [r]
  | a_doRequestDone _ _ | a_doRequestFault _ =>
      returned p + faulted p + 1 = begun p
  | a_timer _ => returned p + faulted p = begun p
  | _ => True
  end.

Definition seq_inv (s : system) : Prop :=
  always seq_ok (trace s) /\
  received (trace s) ++ requestOutCh (conn s) = enqueued (trace s) /\
  exchanged (trace s) `prefix_of` received (trace s) /\
  match worker s with
  | not_started =>
      begun (trace s) = 0 /\ returned (trace s) = 0 /\ faulted (trace s) = 0 /\
      acked (trace s) = 0 /\ received (trace s) = [] /\ exchanged (trace s) = []
  | in_loop _ =>
      returned (trace s) = begun (trace s) /\ faulted (trace s) = 0 /\
      acked (trace s) = begun (trace s) /\
      exchanged (trace s) = received (trace s)
  | exited => returned (trace s) + faulted (trace s) = begun (trace s)
  end.

(** Actions on which [seq_ok] puts no condition. *)
Definition seq_free (a : action) : Prop :=
  match a with
  | a_doRequest _ _ _ _ _ | a_doRequestDone _ _ | a_doRequestFault _
  | a_timer _ => False
  | _ => True
  end.

Lemma follows_seq_free h t : Forall seq_free t -> follows seq_ok h t.
Proof.
  intros H. apply follows_free. eapply Forall_impl; [exact H|].
  intros a Ha p. by destruct a.
Qed.

Lemma drains_seq_free sig q n d : drains sig q n d -> Forall seq_free d.
Proof. induction 1; repeat constructor; done. Qed.

Lemma drains_count0 sig q n d f :
  (forall r, f (a_recvRequest r) = false) ->
  (forall e, f (a_requestFinished e) = false) ->
  f a_recvStop = false ->
  drains sig q n d -> count f d = 0.
Proof. intros H1 H2 H3. induction 1; simpl; rewrite ?H1, ?H2, ?H3; done. Qed.

Lemma drains_omap_nil {A} sig q n d (g : action -> option A) :
  (forall r, g (a_recvRequest r) = None) ->
  (forall e, g (a_requestFinished e) = None) ->
  g a_recvStop = None ->
  drains sig q n d -> omap g d = [].
Proof. intros H1 H2 H3. induction 1; simpl; rewrite ?H1, ?H2, ?H3; done. Qed.

Lemma drains_facts sig q n d :
  drains sig q n d ->
  begun d = 0 /\ returned d = 0 /\ faulted d = 0 /\ acked d = length q /\
  received d = q /\ exchanged d = [] /\ enqueued d = [] /\
  Forall seq_free d.
Proof.
  intros H. repeat split.
  - by apply (drains_count0 sig q n).
  - by apply (drains_count0 sig q n).
  - by apply (drains_count0 sig q n).
  - by apply (drains_acked sig q n).
  - by apply (drains_received sig q n).
  - by apply (drains_omap_nil sig q n).
  - by apply (drains_omap_nil sig q n).
  - by apply (drains_seq_free sig q n).
Qed.

(** The actions of the goroutines that call [submitRequest] or send on
    [stopRequestCh]. *)
Definition outside (a : action) : Prop :=
  match a with
  | a_rlock | a_readDoneRequesting _ | a_sendRequest _ | a_runlock
  | a_sendStop => True
  | _ => False
  end.

Lemma outside_omap_nil {A} (g : action -> option A) d :
  (forall a, outside a -> g a = None) -> Forall outside d -> omap g d = [].
Proof.
  intros Hg. induction 1 as [|a d Ha _ IH]; simpl; [done|]. by rewrite (Hg a Ha).
Qed.

Lemma outside_count0 f d :
  (forall a, outside a -> f a = false) -> Forall outside d -> count f d = 0.
Proof.
  intros Hf H. apply count_zero. eapply Forall_impl; [exact H | exact Hf].
Qed.

Lemma late_sends_outside l : Forall outside (late_sends l).
Proof. induction l; simpl; repeat constructor; done. Qed.

Lemma late_sends_count0 l f :
  f a_rlock = false -> (forall b, f (a_readDoneRequesting b) = false) ->
  (forall r, f (a_sendRequest r) = false) -> f a_runlock = false ->
  count f (late_sends l) = 0.
Proof. intros H1 H2 H3 H4. induction l; simpl; rewrite ?H1, ?H2, ?H3, ?H4; done. Qed.

Lemma late_sends_omap_nil {A} l (g : action -> option A) :
  g a_rlock = None -> (forall b, g (a_readDoneRequesting b) = None) ->
  (forall r, g (a_sendRequest r) = None) -> g a_runlock = None ->
  omap g (late_sends l) = [].
Proof. intros H1 H2 H3 H4. induction l; simpl; rewrite ?H1, ?H2, ?H3, ?H4; done. Qed.

Lemma late_sends_enqueued l : enqueued (late_sends l) = l.
Proof. unfold enqueued. induction l; simpl; [done | by f_equal]. Qed.

Lemma late_sends_seq_free l : Forall seq_free (late_sends l).
Proof. induction l; simpl; repeat constructor; done. Qed.

Lemma late_sends_facts l :
  begun (late_sends l) = 0 /\ returned (late_sends l) = 0 /\
  faulted (late_sends l) = 0 /\ acked (late_sends l) = 0 /\
  received (late_sends l) = [] /\ exchanged (late_sends l) = [] /\
  enqueued (late_sends l) = l /\ Forall seq_free (late_sends l).
Proof.
  repeat split.
  - by apply late_sends_count0.
  - by apply late_sends_count0.
  - by apply late_sends_count0.
  - by apply late_sends_count0.
  - by apply late_sends_omap_nil.
  - by apply late_sends_omap_nil.
  - apply late_sends_enqueued.
  - apply late_sends_seq_free.
Qed.

Ltac tr_unfold :=
  unfold begun, returned, faulted, acked, received, exchanged, enqueued,
         acks, handoffs, hosts, exit_trace, closing, shutdown, redial_trace,
         error_handoff, drained in *.

(** Brings the facts about a drain into the context and makes the actions
    of a step explicit. *)
Ltac tr_drain :=
  unfold exit_trace in *;
  repeat match goal with
  | H : drained _ _ ?d |- _ =>
      let H1 := fresh in
      pose proof (drains_facts _ _ _ _ H) as H1;
      destruct H1 as (? & ? & ? & ? & ? & ? & ? & ?); clear H
  end;
  repeat match goal with
  | |- context [late_sends ?l] =>
      let H1 := fresh in
      pose proof (late_sends_facts l) as H1;
      destruct H1 as (? & ? & ? & ? & ? & ? & ? & ?);
      let ls := fresh "ls" in
      let E := fresh in
      remember (late_sends l) as ls eqn:E; clear E
  end.

Ltac tr_cases :=
  repeat match goal with
  | |- context [if ?b then _ else _] => destruct b eqn:?
  | |- context [match proxyConn ?f with _ => _ end] => destruct (proxyConn f) eqn:?
  end.

Ltac tr_follows :=
  repeat first
    [ progress cbn [follows app]
    | match goal with
      | |- _ /\ _ => split
      | |- follows _ _ (?d ++ _) => is_var d; rewrite follows_app
      | |- follows seq_ok _ ?d => is_var d; by apply follows_seq_free
      end ].

Ltac tr_norm :=
  tr_unfold; rewrite ?count_app, ?omap_app in *; simpl in *;
  rewrite ?count_app, ?omap_app in *; simpl in *.

Ltac tr_select :=
  repeat match goal with
  | H : select_ready _ _ = (sel_timer, _) |- _ =>
      apply select_ready_timer in H; subst
  | H : select_ready _ _ = (sel_stop, _) |- _ =>
      apply select_ready_stop in H; destruct H as (? & ? & ->)
  | H : select_ready _ _ = (sel_request _, _) |- _ =>
      apply select_ready_request in H; destruct H as [? _]
  end.

(** Rewrites with what is known of the drains, then closes equations and
    prefix goals between lists of requests. *)
Ltac tr_list :=
  repeat match goal with
  | H : omap _ ?d = _ |- _ => is_var d; rewrite ?H; clear H
  | H : count _ ?d = _ |- _ => is_var d; rewrite ?H; clear H
  end;
  rewrite ?app_nil_r, <- ?app_assoc; simpl;
  try lia; try congruence;
  try (repeat match goal with
       | H : omap req_exchanged ?t = _ |- context [omap req_exchanged ?t] =>
           rewrite H
       end;
       first [ apply prefix_app; repeat apply prefix_cons; by apply prefix_nil
             | by apply prefix_app_r
             | by apply prefix_nil ]).

Ltac tr_step :=
  unfold exit_trace, closing, shutdown, redial_trace, error_handoff;
  tr_cases; tr_follows; try exact I; cbn [seq_ok]; tr_norm;
  repeat split; tr_list.

Lemma seq_inv_boot addr idle : seq_inv (boot addr idle).
Proof. repeat split; try done. Qed.

Lemma seq_inv_step s e : wf s -> seq_inv s -> seq_inv (step e s).
Proof.
  unfold wf, seq_inv, always. intros Hwf (Hal & Hq & Hpre & Hst).
  destruct e as [r| |o].
  - assert (worker (step (ev_submit r) s) = worker s) as Hw'
      by (unfold step; by destruct (submitRequest r (conn s)) as [[??]?]).
    rewrite Hw'.
    destruct (doneRequesting (conn s)) eqn:Hdn.
    + rewrite (step_submit_done _ _ Hdn). cbn [trace conn].
      rewrite follows_app. cbn [app]. split; [split; [done|]; tr_step|].
      destruct (worker s); tr_norm; rewrite ?Nat.add_0_r, ?app_nil_r; done.
    + assert (requestOutCh_closed (conn s) = false) as Hcl
        by (destruct (worker s); [tauto | tauto | destruct Hwf; congruence]).
      rewrite (step_submit_open _ _ Hdn Hcl). cbn [trace conn].
      rewrite follows_app. cbn [app]. split; [split; [done|]; tr_step|].
      destruct (worker s); tr_norm; rewrite ?Nat.add_0_r, ?app_nil_r;
        (split; [rewrite <- Hq; by rewrite app_assoc|done]).
  - cbn [step trace conn worker]. rewrite follows_app. cbn [app].
    split; [split; [done|]; tr_step|].
    destruct (worker s); tr_norm; rewrite ?Nat.add_0_r, ?app_nil_r; done.
  - destruct (worker s) as [|f|] eqn:Hw.
    + destruct (step_worker_not_started o s Hw ltac:(wf_flag) ltac:(wf_flag)) as (c' & st & out & He & ->).
      cbn [trace conn worker]. rewrite follows_app. cbn [app].
      destruct Hst as (Hb & Hrt & Hf & Ha & Hr & Hx).
      inversion He; subst; clear He; tr_drain.
      all: split; [split; [done|]; tr_step|].
      all: tr_norm; rewrite ?Hr, ?Hx in *; simpl in *; repeat split; tr_list.
    + destruct Hwf as (Hd & ? & ?).
      destruct (step_worker_in_loop o s f Hw Hd ltac:(wf_flag) ltac:(wf_flag)) as (c' & st & out & Hp & ->).
      cbn [trace conn worker]. rewrite follows_app. cbn [app].
      destruct Hst as (Hr & Hf & Ha & Hx).
      inversion Hp; subst; clear Hp; tr_drain; tr_select.
      all: split; [split; [done|]; tr_step|].
      all: unfold exit_trace, closing, shutdown, redial_trace, error_handoff;
        tr_cases; tr_norm; repeat split; tr_list.
      all: rewrite <- Hq, <- ?app_assoc;
        repeat match goal with
        | H : requestOutCh (conn _) = _ :: _ |- _ => rewrite H
        end; done.
    + rewrite (step_worker_exited o s Hw). cbn [trace conn worker].
      rewrite app_nil_r. by repeat split.
Qed.

Lemma seq_inv_run es addr idle : seq_inv (run es (boot addr idle)).
Proof.
  cut (wf (run es (boot addr idle)) /\ seq_inv (run es (boot addr idle))); [tauto|].
  apply run_ind; [split; [apply wf_boot | apply seq_inv_boot]|].
  intros s e [Hwf Hinv]. split; [by apply wf_step | by apply seq_inv_step].
Qed.

(** ** The pin *)

(** The pin in force after the actions [p]: the host of the value handed
    over, the empty string before. *)
Definition pin_at (p : list action) : string :=
  match handoffs p with
  | [] => ""
  | h :: _ => hwr_proxyHost h
  end.

(** A handoff is the first one; it carries either a response and the pin read
    from its header, or an error.  An exchange carries the pin in force. *)
Definition pin_ok (p : list action) (a : action) : Prop :=
  match a with
  | a_doRequest _ _ h _ _ => h = pin_at p
  | a_initialResponse x =>
      handoffs p = [] /\
      match hwr_resp x, hwr_err x with
      | Some r, None => hwr_proxyHost x = Header_Get (Header r) X_ENPROXY_PROXY_HOST
      | None, Some _ => hwr_proxyHost x = ""
      | _, _ => False
      end
  | _ => True
  end.

Definition pin_inv (s : system) : Prop :=
  always pin_ok (trace s) /\
  match worker s with
  | not_started => handoffs (trace s) = []
  | in_loop f =>
      if first f then handoffs (trace s) = [] /\ proxyHost f = ""
      else exists r, handoffs (trace s) = [mkHostWithResponse (proxyHost f) (Some r) None]
  | exited => True
  end.

Definition pin_free (a : action) : Prop :=
  match a with
  | a_doRequest _ _ _ _ _ | a_initialResponse _ => False
  | _ => True
  end.

Lemma follows_pin_free h t : Forall pin_free t -> follows pin_ok h t.
Proof.
  intros H. apply follows_free. eapply Forall_impl; [exact H|].
  intros a Ha p. by destruct a.
Qed.

Lemma drains_pin_free sig q n d : drains sig q n d -> Forall pin_free d.
Proof. induction 1; repeat constructor; done. Qed.

Lemma drains_handoffs sig q n d : drains sig q n d -> handoffs d = [].
Proof. by apply drains_omap_nil. Qed.

Lemma late_sends_pin_free l : Forall pin_free (late_sends l).
Proof. induction l; simpl; repeat constructor; done. Qed.

Lemma late_sends_handoffs l : handoffs (late_sends l) = [].
Proof. by apply late_sends_omap_nil. Qed.

Ltac pin_drain :=
  unfold exit_trace in *;
  repeat match goal with
  | H : drained _ _ ?d |- _ =>
      pose proof (drains_pin_free _ _ _ _ H);
      pose proof (drains_handoffs _ _ _ _ H); clear H
  end;
  repeat match goal with
  | |- context [late_sends ?l] =>
      pose proof (late_sends_pin_free l);
      pose proof (late_sends_handoffs l);
      let ls := fresh "ls" in
      let E := fresh in
      remember (late_sends l) as ls eqn:E; clear E
  end.

Ltac pin_follows :=
  repeat first
    [ progress cbn [follows app]
    | match goal with
      | |- _ /\ _ => split
      | |- follows _ _ (?d ++ _) => is_var d; rewrite follows_app
      | |- follows pin_ok _ ?d => is_var d; by apply follows_pin_free
      end ].

Ltac pin_norm :=
  unfold pin_at, handoffs, exit_trace, closing, shutdown, redial_trace,
         error_handoff in *;
  rewrite ?omap_app in *; simpl in *; rewrite ?omap_app in *; simpl in *.

Ltac pin_step :=
  unfold exit_trace, closing, shutdown, redial_trace, error_handoff;
  tr_cases; pin_follows; try exact I; cbn [pin_ok]; pin_norm;
  repeat match goal with
  | H : omap handoff_of ?t = _ |- _ => rewrite ?H in *; clear H
  end; simpl; rewrite ?app_nil_r; try done; eauto.

Lemma pin_inv_boot addr idle : pin_inv (boot addr idle).
Proof. by split. Qed.

Lemma pin_inv_step s e : wf s -> pin_inv s -> pin_inv (step e s).
Proof.
  unfold wf, pin_inv, always. intros Hwf (Hal & Hst).
  destruct e as [r| |o].
  - assert (worker (step (ev_submit r) s) = worker s) as Hw'
      by (unfold step; by destruct (submitRequest r (conn s)) as [[??]?]).
    rewrite Hw'.
    assert (exists d, trace (step (ev_submit r) s) = trace s ++ d /\
                      Forall pin_free d /\ handoffs d = []) as (d & -> & Hd & Hh).
    { unfold step, submitRequest.
      destruct (doneRequesting (conn s)), (requestOutCh_closed (conn s));
        eexists; (split; [reflexivity|]); split; repeat constructor. }
    rewrite follows_app. split; [split; [done | by apply follows_pin_free]|].
    unfold handoffs in *. rewrite omap_app, Hh, app_nil_r. done.
  - cbn [step trace conn worker]. rewrite follows_app. cbn [app].
    split; [split; [done|]; pin_step|].
    unfold handoffs in *. rewrite omap_app, app_nil_r. done.
  - destruct (worker s) as [|f|] eqn:Hw.
    + destruct (step_worker_not_started o s Hw ltac:(wf_flag) ltac:(wf_flag)) as (c' & st & out & He & ->).
      cbn [trace conn worker]. rewrite follows_app. cbn [app].
      inversion He; subst; clear He; pin_drain.
      all: split; [split; [done|]; pin_step|].
      all: pin_norm;
        repeat match goal with
        | H : omap handoff_of ?t = _ |- _ => rewrite ?H in *; clear H
        end; rewrite ?app_nil_r; done.
    + destruct Hwf as (Hd & ? & ?).
      destruct (step_worker_in_loop o s f Hw Hd ltac:(wf_flag) ltac:(wf_flag)) as (c' & st & out & Hp & ->).
      cbn [trace conn worker]. rewrite follows_app. cbn [app].
      unfold handoffs in Hst.
      destruct (first f) eqn:Hfst;
        [destruct Hst as [Hh Hph] | destruct Hst as [r0 Hh]];
        inversion Hp; subst; clear Hp; try congruence; pin_drain.
      all: rewrite ?Hfst.
      all: split; [split; [done|]; pin_step|]; try exact I.
      all: unfold answered, redialed, set_first, set_proxyHost, set_err,
             set_resp, set_bufReader, set_proxyConn; simpl; rewrite ?Hfst.
      all: unfold redial_trace; tr_cases;
        pin_norm; rewrite ?Hfst, ?Hh, ?app_nil_r; simpl; eauto.
    + rewrite (step_worker_exited o s Hw). cbn [trace conn worker].
      rewrite app_nil_r. by split.
Qed.

Lemma pin_inv_run es addr idle : pin_inv (run es (boot addr idle)).
Proof.
  cut (wf (run es (boot addr idle)) /\ pin_inv (run es (boot addr idle))); [tauto|].
  apply run_ind; [split; [apply wf_boot | apply pin_inv_boot]|].
  intros s e [Hwf Hinv]. split; [by apply wf_step | by apply pin_inv_step].
Qed.

(** ** The flag and the lock *)

(** The writer holds the lock after [p]; a reader holds it after [p]. *)
Definition write_locked (p : list action) : Prop :=
  count is_lock p = S (count is_unlock p) /\ count is_rlock p = count is_runlock p.
Definition read_locked (p : list action) : Prop :=
  count is_rlock p = S (count is_runlock p) /\ count is_lock p = count is_unlock p.
Definition unlocked (p : list action) : Prop :=
  count is_lock p = count is_unlock p /\ count is_rlock p = count is_runlock p.

(** The discipline of [requestMutex], [doneRequesting] and the closing of
    [requestOutCh]. *)
Definition lock_ok (p : list action) (a : action) : Prop :=
  match a with
  | a_lock | a_rlock => unlocked p
  | a_unlock => write_locked p
  | a_runlock => read_locked p
  | a_setDoneRequesting => write_locked p /\ count is_setDoneRequesting p = 0
  | a_readDoneRequesting b =>
      read_locked p /\ count is_setDoneRequesting p = (if b then 1 else 0)
  | a_sendRequest _ =>
      read_locked p /\ count is_setDoneRequesting p = 0 /\
      count is_closeRequestOutCh p = 0
  | a_closeRequestOutCh =>
      count is_setDoneRequesting p = 1 /\ count is_closeRequestOutCh p = 0
  | _ => True
  end.

Definition lock_inv (s : system) : Prop :=
  always lock_ok (trace s) /\ unlocked (trace s) /\
  match worker s with
  | exited =>
      count is_setDoneRequesting (trace s) = 1 /\
      count is_closeRequestOutCh (trace s) = 1
  | _ =>
      count is_setDoneRequesting (trace s) = 0 /\
      count is_closeRequestOutCh (trace s) = 0
  end.

Definition lock_free (a : action) : Prop :=
  match a with
  | a_lock | a_rlock | a_unlock | a_runlock | a_setDoneRequesting
  | a_readDoneRequesting _ | a_sendRequest _ | a_closeRequestOutCh => False
  | _ => True
  end.

Lemma follows_lock_free h t : Forall lock_free t -> follows lock_ok h t.
Proof.
  intros H. apply follows_free. eapply Forall_impl; [exact H|].
  intros a Ha p. by destruct a.
Qed.

Lemma count_lock_free f t :
  (forall a, lock_free a -> f a = false) -> Forall lock_free t -> count f t = 0.
Proof.
  intros Hf H. apply count_zero. eapply Forall_impl; [exact H|]. exact Hf.
Qed.

Lemma drains_lock_free sig q n d : drains sig q n d -> Forall lock_free d.
Proof. induction 1; repeat constructor; done. Qed.

(** The actions of a step of the worker that stays in the loop, or that come
    before the cleanup, do not touch the lock. *)
Lemma redial_trace_lock_free o f : Forall lock_free (redial_trace o f).
Proof. unfold redial_trace. destruct (conn_usable o); repeat constructor. Qed.

Lemma error_handoff_lock_free f e : Forall lock_free (error_handoff f e).
Proof. unfold error_handoff. destruct (first f); repeat constructor. Qed.

Lemma closing_lock_free f : Forall lock_free (closing f).
Proof. unfold closing. destruct (proxyConn f); repeat constructor. Qed.

(** A step of the worker is either free of lock actions, or made of such
    actions followed by the four actions of the shutdown. *)
Lemma pass_lock o c f c' st out :
  pass o c f c' st out ->
  match st with
  | exited =>
      exists pre, out = pre ++ late_sends (late_submits o) ++ shutdown None /\
                  Forall lock_free pre
  | _ => Forall lock_free out
  end.
Proof.
  pose proof (redial_trace_lock_free o f).
  pose proof (fun e => error_handoff_lock_free f e).
  intros Hp; inversion Hp; subst; clear Hp; unfold drained in *;
    repeat match goal with
    | H : drains _ _ _ _ |- _ => apply drains_lock_free in H
    end;
    unfold exit_trace;
    try (set (tail := late_sends (late_submits o) ++ shutdown None);
         rewrite ?app_comm_cons, ?app_assoc; eexists; split; [reflexivity|]);
    rewrite ?Forall_app, ?Forall_cons; repeat split;
    auto using closing_lock_free; try done; by repeat constructor.
Qed.

Lemma entry_lock o c c' st out :
  entry o c c' st out ->
  match st with
  | exited =>
      exists pre, out = pre ++ late_sends (late_submits o) ++ shutdown None /\
                  Forall lock_free pre
  | _ => Forall lock_free out
  end.
Proof.
  intros He; inversion He; subst; clear He; unfold drained in *;
    repeat match goal with
    | H : drains _ _ _ _ |- _ => apply drains_lock_free in H
    end;
    try (set (tail := late_sends (late_submits o) ++ shutdown None);
         rewrite ?app_comm_cons, ?app_assoc; eexists; split; [reflexivity|]);
    rewrite ?Forall_app, ?Forall_cons; repeat split; try done;
    by repeat constructor.
Qed.

Lemma lock_inv_boot addr idle : lock_inv (boot addr idle).
Proof. by repeat split. Qed.

(** Appending actions that do not touch the lock. *)
Lemma lock_inv_free t d :
  Forall lock_free d ->
  always lock_ok t -> always lock_ok (t ++ d) /\
  count is_lock (t ++ d) = count is_lock t /\
  count is_unlock (t ++ d) = count is_unlock t /\
  count is_rlock (t ++ d) = count is_rlock t /\
  count is_runlock (t ++ d) = count is_runlock t /\
  count is_setDoneRequesting (t ++ d) = count is_setDoneRequesting t /\
  count is_closeRequestOutCh (t ++ d) = count is_closeRequestOutCh t.
Proof.
  intros Hd Hal. unfold always. rewrite follows_app, !count_app.
  rewrite !(count_lock_free _ d) by (done || by intros []).
  repeat split; try lia; [done | by apply follows_lock_free].
Qed.

(** Appending the shutdown when the lock is free and the flag not set. *)
Lemma lock_inv_shutdown t :
  always lock_ok t -> unlocked t ->
  count is_setDoneRequesting t = 0 -> count is_closeRequestOutCh t = 0 ->
  always lock_ok (t ++ shutdown None) /\ unlocked (t ++ shutdown None) /\
  count is_setDoneRequesting (t ++ shutdown None) = 1 /\
  count is_closeRequestOutCh (t ++ shutdown None) = 1.
Proof.
  intros Hal [Hl Hr] Hs Hc. unfold always, unlocked, write_locked in *.
  rewrite follows_app, !count_app. simpl.
  unfold unlocked, write_locked. rewrite !count_app. simpl.
  repeat split; try done; lia.
Qed.

(** Appending calls of [submitRequest] that find the flag unset. *)
Lemma lock_inv_late l t :
  always lock_ok t -> unlocked t ->
  count is_setDoneRequesting t = 0 -> count is_closeRequestOutCh t = 0 ->
  always lock_ok (t ++ late_sends l) /\ unlocked (t ++ late_sends l) /\
  count is_setDoneRequesting (t ++ late_sends l) = 0 /\
  count is_closeRequestOutCh (t ++ late_sends l) = 0.
Proof.
  revert t. induction l as [|r l IH]; intros t Hal Hun Hs Hc; simpl.
  - by rewrite app_nil_r.
  - change (a_rlock :: a_readDoneRequesting false :: a_sendRequest r ::
            a_runlock :: late_sends l)
      with ([a_rlock; a_readDoneRequesting false; a_sendRequest r; a_runlock] ++
            late_sends l).
    rewrite app_assoc. destruct Hun as [Hl Hr].
    apply IH; unfold always, unlocked, read_locked in *;
      rewrite ?follows_app, ?count_app; simpl;
      unfold unlocked, read_locked; rewrite ?count_app; simpl;
      repeat split; try done; lia.
Qed.

Lemma lock_inv_step s e : wf s -> lock_inv s -> lock_inv (step e s).
Proof.
  unfold wf, lock_inv. intros Hwf (Hal & Hun & Hst).
  assert (forall o' c' st out,
    match st with
    | exited =>
        exists pre, out = pre ++ late_sends (late_submits o') ++ shutdown None /\
                    Forall lock_free pre
    | _ => Forall lock_free out
    end ->
    (count is_setDoneRequesting (trace s) = 0 /\
     count is_closeRequestOutCh (trace s) = 0) ->
    lock_inv (mkSystem c' st (trace s ++ out))) as Hworker.
  { intros o' c' st out Hout [Hs Hc]. unfold lock_inv. cbn [trace worker].
    destruct st as [|f'|].
    - destruct (lock_inv_free (trace s) out Hout Hal) as (? & Ha & Hb & Hc' & Hd & He & Hf).
      unfold unlocked in *. rewrite Ha, Hb, Hc', Hd, He, Hf. tauto.
    - destruct (lock_inv_free (trace s) out Hout Hal) as (? & Ha & Hb & Hc' & Hd & He & Hf).
      unfold unlocked in *. rewrite Ha, Hb, Hc', Hd, He, Hf. tauto.
    - destruct Hout as (pre & -> & Hpre).
      destruct (lock_inv_free (trace s) pre Hpre Hal) as (Hal1 & Ha & Hb & Hc' & Hd & He & Hf).
      destruct (lock_inv_late (late_submits o') (trace s ++ pre)) as (? & ? & ? & ?);
        [done | unfold unlocked in *; rewrite Ha, Hb, Hc', Hd; tauto
        | congruence | congruence |].
      rewrite !app_assoc. by apply lock_inv_shutdown. }
  destruct e as [r| |o].
  - assert (worker (step (ev_submit r) s) = worker s) as Hw'
      by (unfold step; by destruct (submitRequest r (conn s)) as [[??]?]).
    rewrite Hw'. destruct Hun as [Hl Hr].
    destruct (doneRequesting (conn s)) eqn:Hdn.
    + rewrite (step_submit_done _ _ Hdn). cbn [trace].
      assert (count is_setDoneRequesting (trace s) = 1) as Hs
        by (destruct (worker s); intuition congruence).
      unfold always, unlocked, read_locked in *.
      rewrite follows_app, !count_app. simpl.
      unfold unlocked, read_locked. rewrite !count_app. simpl.
      destruct (worker s); destruct Hst; repeat split; try done; lia.
    + assert (requestOutCh_closed (conn s) = false) as Hcl
        by (destruct (worker s); [tauto | tauto | destruct Hwf; congruence]).
      rewrite (step_submit_open _ _ Hdn Hcl). cbn [trace].
      assert (count is_setDoneRequesting (trace s) = 0 /\
              count is_closeRequestOutCh (trace s) = 0) as [Hs Hc]
        by (destruct (worker s); intuition congruence).
      unfold always, unlocked, read_locked in *.
      rewrite follows_app, !count_app. simpl.
      unfold unlocked, read_locked. rewrite !count_app. simpl.
      destruct (worker s); destruct Hst; repeat split; try done; lia.
  - cbn [step trace worker].
    destruct (lock_inv_free (trace s) [a_sendStop]) as (? & Ha & Hb & Hc' & Hd & He & Hf);
      [by repeat constructor | done |].
    unfold unlocked in *. rewrite Ha, Hb, Hc', Hd, He, Hf. tauto.
  - destruct (worker s) as [|f|] eqn:Hw.
    + destruct (step_worker_not_started o s Hw ltac:(wf_flag) ltac:(wf_flag)) as (c' & st & out & He & ->).
      apply (Hworker o); [by eapply entry_lock | done].
    + destruct Hwf as (Hd & ? & ?).
      destruct (step_worker_in_loop o s f Hw Hd ltac:(wf_flag) ltac:(wf_flag)) as (c' & st & out & Hp & ->).
      apply (Hworker o); [by eapply pass_lock | done].
    + rewrite (step_worker_exited o s Hw). unfold lock_inv. cbn [trace worker].
      by rewrite app_nil_r.
Qed.

Lemma lock_inv_run es addr idle : lock_inv (run es (boot addr idle)).
Proof.
  cut (wf (run es (boot addr idle)) /\ lock_inv (run es (boot addr idle))); [tauto|].
  apply run_ind; [split; [apply wf_boot | apply lock_inv_boot]|].
  intros s e [Hwf Hinv]. split; [by apply wf_step | by apply lock_inv_step].
Qed.

(** ** After the worker has left *)

(** What the other goroutines still do to a session whose worker has left. *)
Definition passive (a : action) : Prop :=
  match a with
  | a_rlock | a_readDoneRequesting true | a_runlock | a_sendStop => True
  | _ => False
  end.

Lemma exited_step s e :
  worker s = exited -> doneRequesting (conn s) = true ->
  worker (step e s) = exited /\ doneRequesting (conn (step e s)) = true /\
  requestOutCh (conn (step e s)) = requestOutCh (conn s) /\
  exists d, trace (step e s) = trace s ++ d /\ Forall passive d.
Proof.
  intros Hw Hd. destruct e as [r| |o].
  - rewrite (step_submit_done _ _ Hd). simpl. repeat split; try done.
    eexists. split; [done | by repeat constructor].
  - simpl. repeat split; try done.
    eexists. split; [done | by repeat constructor].
  - rewrite (step_worker_exited _ _ Hw). simpl. repeat split; try done.
    exists []. split; [done | constructor].
Qed.

Lemma exited_run es s :
  worker s = exited -> doneRequesting (conn s) = true ->
  worker (run es s) = exited /\ doneRequesting (conn (run es s)) = true /\
  requestOutCh (conn (run es s)) = requestOutCh (conn s) /\
  exists d, trace (run es s) = trace s ++ d /\ Forall passive d.
Proof.
  revert s. induction es as [|e es IH]; intros s Hw Hd; simpl.
  - repeat split; try done. exists []. by rewrite app_nil_r.
  - destruct (exited_step s e Hw Hd) as (Hw' & Hd' & Hq' & d1 & Ht1 & Hp1).
    destruct (IH _ Hw' Hd') as (Hw'' & Hd'' & Hq'' & d2 & Ht2 & Hp2).
    repeat split; try done; [congruence|].
    exists (d1 ++ d2). split; [by rewrite Ht2, Ht1, app_assoc | by apply Forall_app].
Qed.

Lemma passive_omap_nil {A} (g : action -> option A) d :
  (forall a, passive a -> g a = None) -> Forall passive d -> omap g d = [].
Proof.
  intros Hg. induction 1 as [|a d Ha _ IH]; simpl; [done|]. by rewrite (Hg a Ha).
Qed.

Lemma passive_count0 f d :
  (forall a, passive a -> f a = false) -> Forall passive d -> count f d = 0.
Proof.
  intros Hf H. apply count_zero. eapply Forall_impl; [exact H | exact Hf].
Qed.

Lemma trace_extends es s : exists d, trace (run es s) = trace s ++ d.
Proof.
  revert s. induction es as [|e es IH]; intros s; simpl.
  - exists []. by rewrite app_nil_r.
  - destruct (IH (step e s)) as [d2 ->].
    assert (exists d1, trace (step e s) = trace s ++ d1) as [d1 ->].
    { destruct e as [r| |o]; simpl.
      - destruct (submitRequest r (conn s)) as [[??]?]. by eexists.
      - by eexists.
      - destruct (worker_step o (conn s) (worker s)) as [[??]?]. by eexists. }
    exists (d1 ++ d2). by rewrite app_assoc.
Qed.

(** ** Exchanges are never in flight together *)

Lemma always_app_l ok t d : always ok (t ++ d) -> always ok t.
Proof. unfold always. rewrite follows_app. tauto. Qed.

Lemma seq_ok_bound p :
  always seq_ok p ->
  returned p + faulted p <= begun p <= returned p + faulted p + 1.
Proof.
  induction p as [|a p IH] using rev_ind; [simpl; intros; unfold begun, returned, faulted; simpl; lia|].
  intros Hal. specialize (IH (always_app_l _ _ _ Hal)).
  unfold always in Hal. rewrite follows_app in Hal. destruct Hal as [_ [Ha _]].
  simpl in Ha. unfold begun, returned, faulted in *. rewrite !count_app. simpl.
  destruct a; simpl in *; unfold begun, returned, faulted in *; lia.
Qed.

(** C1: at every instant of a session at most one outbound exchange is in
    flight: of the exchanges begun so far, all but possibly the last have
    ended.  An exchange is issued only when every earlier one has returned and
    has been acknowledged on [requestFinishedCh], and it carries the one item
    taken from [requestOutCh] and not yet exchanged.  The items exchanged are
    the first of the items enqueued, in the same order. *)
Theorem C1_exchanges_one_at_a_time es addr idle :
  let t := trace (run es (boot addr idle)) in
  (forall p, p `prefix_of` t ->
     returned p + faulted p <= begun p <= returned p + faulted p + 1) /\
  (forall p pc br h op r q, t = p ++ a_doRequest pc br h op r :: q ->
     returned p = begun p /\ faulted p = 0 /\ acked p = begun p /\
     received p = exchanged p ++ [r]) /\
  exchanged t `prefix_of` enqueued t.
Proof.
  intros t. destruct (seq_inv_run es addr idle) as (Hal & Hq & Hpre & _).
  fold t in Hal, Hq, Hpre. repeat split.
  - destruct H as [q ->]. apply seq_ok_bound. by apply always_app_l in Hal.
  - destruct H as [q ->]. apply seq_ok_bound. by apply always_app_l in Hal.
  - rewrite always_spec in Hal. apply (Hal _ _ _ H).
  - rewrite always_spec in Hal. apply (Hal _ _ _ H).
  - rewrite always_spec in Hal. apply (Hal _ _ _ H).
  - rewrite always_spec in Hal. apply (Hal _ _ _ H).
  - etrans; [exact Hpre|]. rewrite <- Hq. by apply prefix_app_r.
Qed.

(** ** The cleanup when the worker leaves *)

(** The runtime faults raised. *)
Definition panic_of (a : action) : option string :=
  match a with a_panic v => Some v | _ => None end.

Definition panics_in : list action -> list string := omap panic_of.

(** A step that ends the worker from connection [c]: the actions [pre] of
    the body and of the deferred closure, then the cleanup, called with no
    response and with the fault [pk] raised in [pre] if there is one.  The
    cleanup drains the requests [pending], which are the ones [pre] left in
    the channel; the requests [late] are submitted before it takes the
    lock. *)
Definition leaves (late : list request) (c : Conn) (out : list action)
    (c' : Conn) : Prop :=
  exists pre pk pending n d,
    out = pre ++ a_cleanup None pk :: d ++ late_sends late ++ shutdown None /\
    panics_in pre = match pk with Some v => [v] | None => [] end /\
    requestOutCh c = received pre ++ pending /\
    drains (drain_signal pk) pending n d /\
    c' = shut late c.

Lemma select_ready_shut late p c s c1 :
  select_ready p c = (s, c1) -> shut late c1 = shut late c.
Proof.
  destruct s as [r| |]; intros H.
  - apply select_ready_request in H as [_ ->]. done.
  - apply select_ready_stop in H as (n & _ & ->). done.
  - apply select_ready_timer in H as ->. done.
Qed.

Lemma select_ready_emptied p c s c1 :
  select_ready p c = (s, c1) -> emptied c1 = emptied c.
Proof.
  destruct s as [r| |]; intros H.
  - apply select_ready_request in H as [_ ->]. done.
  - apply select_ready_stop in H as (n & _ & ->). done.
  - apply select_ready_timer in H as ->. done.
Qed.

Lemma select_ready_pending p c s c1 :
  select_ready p c = (s, c1) ->
  requestOutCh c =
    match s with sel_request r => [r] | _ => [] end ++ requestOutCh c1.
Proof.
  destruct s as [r| |]; intros H.
  - by apply select_ready_request in H as [-> _].
  - apply select_ready_stop in H as (n & _ & ->). done.
  - apply select_ready_timer in H as ->. done.
Qed.

Lemma leaves_intro late c body f pk d pending n c' :
  panics_in (body ++ closing f) = match pk with Some v => [v] | None => [] end ->
  requestOutCh c = received (body ++ closing f) ++ pending ->
  drains (drain_signal pk) pending n d ->
  c' = shut late c ->
  leaves late c (body ++ exit_trace late f pk d) c'.
Proof.
  intros Hpk Hq Hd ->. exists (body ++ closing f), pk, pending, n, d.
  unfold exit_trace. by rewrite <- app_assoc.
Qed.

Lemma panics_closing f : panics_in (closing f) = [].
Proof. unfold closing. by destruct (proxyConn f). Qed.

Lemma received_closing f : received (closing f) = [].
Proof. unfold closing. by destruct (proxyConn f). Qed.

Lemma panics_redial_trace o f : panics_in (redial_trace o f) = [].
Proof. unfold redial_trace. by destruct (conn_usable o). Qed.

Lemma received_redial_trace o f : received (redial_trace o f) = [].
Proof. unfold redial_trace. by destruct (conn_usable o). Qed.

Lemma panics_error_handoff f e : panics_in (error_handoff f e) = [].
Proof. unfold error_handoff. by destruct (first f). Qed.

Lemma received_error_handoff f e : received (error_handoff f e) = [].
Proof. unfold error_handoff. by destruct (first f). Qed.

(** Computes the faults and the requests received in the body of a step. *)
Ltac leaves_body :=
  unfold panics_in, received; rewrite ?omap_app; fold panics_in; fold received;
  rewrite ?panics_closing, ?received_closing, ?panics_redial_trace,
          ?received_redial_trace, ?panics_error_handoff, ?received_error_handoff;
  simpl; rewrite ?app_nil_r.

Ltac leaves_goal :=
  try (erewrite select_ready_pending by eassumption);
  leaves_body;
  first [ reflexivity
        | eassumption
        | eapply select_ready_shut; eassumption ].

Lemma pass_leaves o c f c' out :
  pass o c f c' exited out -> leaves (late_submits o) c out c'.
Proof.
  intros Hp; inversion Hp; subst; clear Hp; unfold drained in *.
  - eapply (leaves_intro _ c [a_isClosed true]); leaves_goal.
  - eapply leaves_intro; leaves_goal.
  - eapply leaves_intro; leaves_goal.
  - rewrite !app_assoc. eapply leaves_intro; leaves_goal.
  - rewrite !app_assoc. eapply leaves_intro; leaves_goal.
  - rewrite !app_assoc. eapply leaves_intro; leaves_goal.
  - rewrite !app_assoc. eapply leaves_intro; leaves_goal.
  - rewrite !app_assoc. eapply leaves_intro; leaves_goal.
Qed.

Lemma entry_leaves o c c' out :
  entry o c c' exited out -> leaves (late_submits o) c out c'.
Proof.
  intros Hp; inversion Hp; subst; clear Hp; unfold drained in *.
  - exists [a_dialProxy; a_panic v], (Some v), (requestOutCh c), (stopRequestCh c), d.
    by repeat split.
  - exists [a_dialProxy;
            a_log ("Unable to dial proxy for POSTing request: " +:+ Error e)],
           None, (requestOutCh c), (stopRequestCh c), d.
    by repeat split.
Qed.

(** C2: whenever a step ends the worker, be it through [return] or through a
    runtime fault, the cleanup runs, drains every request that is in
    [requestOutCh] when its [select] runs, and sends one acknowledgment for
    each request it drains, right after taking it: [io.EOF] when no fault was
    raised and [io.ErrUnexpectedEOF] when one was.  That does not reach every
    caller: a request passed to [submitRequest] after the [select] has taken
    its [default] case and before the cleanup takes the lock is accepted,
    since [doneRequesting] is still unset; it stays in the closed channel for
    ever, is never received, and no acknowledgment is sent after the
    cleanup. *)
Theorem C2_late_submission_is_never_acknowledged es addr idle o :
  let s := run es (boot addr idle) in
  let s' := step (ev_worker o) s in
  worker s <> exited -> worker s' = exited ->
  exists pre pk pending n d,
    trace s' = trace s ++ pre ++ a_cleanup None pk :: d ++
               late_sends (late_submits o) ++ shutdown None /\
    panics_in pre = match pk with Some v => [v] | None => [] end /\
    requestOutCh (conn s) = received pre ++ pending /\
    drains (drain_signal pk) pending n d /\
    received d = pending /\
    acks d = (fun _ => Some (drain_signal pk)) <$> pending /\
    enqueued (trace s') = enqueued (trace s) ++ late_submits o /\
    forall es',
      requestOutCh (conn (run es' s')) = late_submits o /\
      enqueued (trace (run es' s')) =
        received (trace (run es' s')) ++ late_submits o /\
      received (trace (run es' s')) = received (trace s') /\
      acks (trace (run es' s')) = acks (trace s').
Proof.
  intros s s' Hne Hex. pose proof (wf_run es addr idle) as Hwf.
  fold s in Hwf. unfold wf in Hwf.
  assert (exists c' out, s' = mkSystem c' exited (trace s ++ out) /\
                         leaves (late_submits o) (conn s) out c')
    as (c' & out & Hs' & Hl).
  { subst s'. destruct (worker s) as [|f|] eqn:Hw; [| |done].
    - destruct (step_worker_not_started o s Hw ltac:(wf_flag) ltac:(wf_flag))
        as (c' & st & out & He & Hs').
      rewrite Hs' in Hex |- *. simpl in Hex. subst st.
      exists c', out. split; [done | by eapply entry_leaves].
    - destruct Hwf as (Hd & ? & ?).
      destruct (step_worker_in_loop o s f Hw Hd ltac:(wf_flag) ltac:(wf_flag))
        as (c' & st & out & Hp & Hs').
      rewrite Hs' in Hex |- *. simpl in Hex. subst st.
      exists c', out. split; [done | by eapply pass_leaves]. }
  destruct Hl as (pre & pk & pending & n & d & -> & Hpk & Hq & Hd & ->).
  assert (forall es',
    requestOutCh (conn (run es' s')) = late_submits o /\
    received (trace (run es' s')) = received (trace s') /\
    acks (trace (run es' s')) = acks (trace s')) as Hafter.
  { intros es'.
    destruct (exited_run es' s') as (_ & _ & Hq' & d' & -> & Hp').
    - by rewrite Hs'.
    - by rewrite Hs'.
    - rewrite Hq', Hs'. split; [done|].
      unfold received, acks. rewrite !omap_app.
      rewrite !(passive_omap_nil _ d'), !app_nil_r; try done; by intros []. }
  exists pre, pk, pending, n, d. rewrite Hs'. cbn [trace].
  split; [done|]. split; [done|]. split; [done|]. split; [done|].
  split; [by apply (drains_received _ _ _ _ Hd)|].
  split; [by apply (drains_acks _ _ _ _ Hd)|].
  split.
  - pose proof (seq_inv_run (es ++ [ev_worker o]) addr idle) as (_ & Hq1 & _).
    rewrite run_snoc in Hq1. fold s in Hq1. fold s' in Hq1.
    destruct (seq_inv_run es addr idle) as (_ & Hq0 & _). fold s in Hq0.
    rewrite Hs' in Hq1. cbn [trace conn shut requestOutCh] in Hq1.
    rewrite <- Hq1, <- Hq0, Hq.
    unfold received. rewrite !omap_app. simpl. rewrite !omap_app.
    rewrite (late_sends_omap_nil _ req_received) by done.
    fold (received d). rewrite (drains_received _ _ _ _ Hd).
    simpl. by rewrite ?app_nil_r, <- ?app_assoc.
  - intros es'. destruct (Hafter es') as (Hq' & Hr' & Ha').
    rewrite Hs' in Hq', Hr', Ha'. cbn [trace] in Hr', Ha'.
    split; [done|]. split; [|split; [done | done]].
    pose proof (seq_inv_run (es ++ [ev_worker o] ++ es') addr idle) as (_ & Hq1 & _).
    rewrite app_assoc, run_app, run_snoc in Hq1. fold s in Hq1. fold s' in Hq1.
    rewrite Hs' in Hq1. by rewrite Hq' in Hq1.
Qed.

(** ** Failures *)

Lemma emptied_idem c : emptied (emptied c) = emptied c.
Proof. done. Qed.

Lemma emptied_shut late c : emptied (shut late c) = emptied c.
Proof. done. Qed.

Lemma emptied_step s e : wf s -> emptied (conn (step e s)) = emptied (conn s).
Proof.
  unfold wf. intros Hwf. destruct e as [r| |o].
  - simpl. unfold submitRequest.
    by destruct (doneRequesting (conn s)), (requestOutCh_closed (conn s)).
  - done.
  - destruct (worker s) as [|f|] eqn:Hw.
    + destruct (step_worker_not_started o s Hw ltac:(wf_flag) ltac:(wf_flag)) as (c' & st & out & He & ->).
      simpl. inversion He; subst; rewrite ?emptied_shut; done.
    + destruct Hwf as (Hd & ? & ?).
      destruct (step_worker_in_loop o s f Hw Hd ltac:(wf_flag) ltac:(wf_flag)) as (c' & st & out & Hp & ->).
      simpl. inversion Hp; subst; rewrite ?emptied_shut; try done;
        eapply select_ready_emptied; eassumption.
    + by rewrite (step_worker_exited o s Hw).
Qed.

(** The address and the idle duration of a session never change. *)
Lemma config_run es addr idle :
  Addr (conn (run es (boot addr idle))) = addr /\
  IdleTimeout (conn (run es (boot addr idle))) = idle.
Proof.
  cut (wf (run es (boot addr idle)) /\
       emptied (conn (run es (boot addr idle))) = emptied (newConn addr idle)).
  { intros [_ H]. by injection H. }
  apply run_ind; [split; [apply wf_boot | done]|].
  intros s e [Hwf <-]. split; [by apply wf_step | by apply emptied_step].
Qed.

Lemma addr_run es addr idle : Addr (conn (run es (boot addr idle))) = addr.
Proof. apply config_run. Qed.

(** Inverts a pass and keeps the paths that agree with what is known of the
    oracle. *)
Ltac pass_inv Hp :=
  inversion Hp; subst; clear Hp; try congruence;
  repeat match goal with
  | H1 : select_ready ?p ?c = _, H2 : select_ready ?p ?c = _ |- _ =>
      rewrite H1 in H2; injection H2 as ?; subst
  | H1 : redial ?o ?f = _, H2 : redial ?o ?f = _ |- _ =>
      rewrite H1 in H2; injection H2 as ?; subst
  | H1 : doRequest_result ?o = _, H2 : doRequest_result ?o = _ |- _ =>
      rewrite H1 in H2; injection H2 as ?; subst
  end; try congruence.

Lemma handoffs_exit_trace l f pk c d :
  drained pk c d -> handoffs (exit_trace l f pk d) = [].
Proof.
  intros Hd. apply drains_handoffs in Hd. unfold handoffs, exit_trace, closing in *.
  destruct (proxyConn f); simpl; rewrite !omap_app, Hd;
    rewrite (late_sends_omap_nil l handoff_of); done.
Qed.

Lemma exchanged_exit_trace l f pk c d :
  drained pk c d -> exchanged (exit_trace l f pk d) = [].
Proof.
  intros Hd. apply drains_facts in Hd as (_ & _ & _ & _ & _ & Hx & _).
  unfold exchanged, exit_trace, closing in *.
  destruct (proxyConn f); simpl; rewrite !omap_app, Hx;
    rewrite (late_sends_omap_nil l req_exchanged); done.
Qed.

Lemma handoffs_redial_trace o f : handoffs (redial_trace o f) = [].
Proof. unfold redial_trace. by destruct (conn_usable o). Qed.

Lemma exchanged_redial_trace o f : exchanged (redial_trace o f) = [].
Proof. unfold redial_trace. by destruct (conn_usable o). Qed.

Lemma exchanged_error_handoff f e : exchanged (error_handoff f e) = [].
Proof. unfold error_handoff. by destruct (first f). Qed.

(** Once the worker has left, nothing is exchanged or handed over any more. *)
Lemma exited_quiet es s :
  worker s = exited -> doneRequesting (conn s) = true ->
  exchanged (trace (run es s)) = exchanged (trace s) /\
  handoffs (trace (run es s)) = handoffs (trace s) /\
  acks (trace (run es s)) = acks (trace s).
Proof.
  intros Hw Hd. destruct (exited_run es s Hw Hd) as (_ & _ & _ & d & -> & Hp).
  unfold exchanged, handoffs, acks. rewrite !omap_app.
  rewrite !(passive_omap_nil _ d), !app_nil_r; try done; by intros [].
Qed.

(** C3: when the first exchange of a session fails, because the relay cannot
    be redialed or because the exchange itself returns an error, the worker
    sends that error, wrapped by [mkerror], on [initialResponseCh] and
    leaves; it is the only value the channel ever gets, and no exchange is
    made afterwards. *)
Theorem C3_first_exchange_failure es addr idle o f r c1 e text :
  let s := run es (boot addr idle) in
  let s' := step (ev_worker o) s in
  worker s = in_loop f -> first f = true ->
  isClosed_result o = false ->
  select_ready (select_preference o) (conn s) = (sel_request r, c1) ->
  ((exists pc br, redial o f = returns (pc, br, Some e)) /\
     text = "Unable to redial proxy") \/
  ((exists pc br rsp, redial o f = returns (pc, br, None) /\
                      doRequest_result o = returns (rsp, Some e)) /\
     text = "Unable to issue write request") ->
  worker s' = exited /\
  (forall es', handoffs (trace (run es' s')) =
     [mkHostWithResponse "" None (Some (fmt_Errorf addr "" text e))]) /\
  (forall es', exchanged (trace (run es' s')) = exchanged (trace s')).
Proof.
  intros s s' Hw Hf Hcl Hsel Hfail. subst s'.
  pose proof (wf_run es addr idle) as Hwf. fold s in Hwf.
  pose proof (pin_inv_run es addr idle) as [_ Hpin]. fold s in Hpin.
  pose proof (addr_run es addr idle) as Ha. fold s in Ha.
  pose proof (wf_step s (ev_worker o) Hwf) as Hwf'.
  clearbody s. unfold wf in Hwf, Hwf'.
  rewrite Hw in Hwf. destruct Hwf as (Hd & ? & ?).
  rewrite Hw, Hf in Hpin. destruct Hpin as [Hh Hhost].
  assert (Addr c1 = addr) as Ha1.
  { apply select_ready_emptied in Hsel. rewrite <- Ha. by injection Hsel. }
  destruct (step_worker_in_loop o s f Hw Hd ltac:(wf_flag) ltac:(wf_flag)) as (c' & st & out & Hp & Hs').
  rewrite Hs' in *. cbn [worker conn trace] in *.
  assert (st = exited /\
          handoffs out = [mkHostWithResponse "" None (Some (fmt_Errorf addr "" text e))])
    as [-> Hout].
  { destruct Hfail as [[(pc & br & Hr) ->]|[(pc & br & rsp & Hr & Hx) ->]];
      pass_inv Hp; subst e1; rewrite Hhost, ?Ha1; (split; [done|]);
      unfold handoffs; rewrite !omap_app;
      fold handoffs; rewrite handoffs_redial_trace;
      erewrite handoffs_exit_trace by eassumption;
      unfold error_handoff; rewrite Hf; done. }
  destruct Hwf' as (Hdn & _).
  split; [done|]. split; intros es'.
  - destruct (exited_quiet es' (mkSystem c' exited (trace s ++ out)) eq_refl Hdn)
      as (_ & -> & _).
    cbn [trace]. unfold handoffs in *. by rewrite omap_app, Hh, Hout.
  - by destruct (exited_quiet es' (mkSystem c' exited (trace s ++ out)) eq_refl Hdn)
      as (-> & _ & _).
Qed.

(** ** The connection is checked before every exchange *)

(** An exchange over [pc] comes right after the check of [pc], found usable,
    or right after a check that failed and the dial that followed it. *)
Definition chk_ok (p : list action) (a : action) : Prop :=
  match a with
  | a_doRequest pc _ _ _ _ =>
      (exists p', p = p' ++ [a_checkConn pc true]) \/
      (exists p' pc0, p = p' ++ [a_checkConn pc0 false; a_dialProxy])
  | _ => True
  end.

Definition chk_free (a : action) : Prop :=
  match a with a_doRequest _ _ _ _ _ => False | _ => True end.

Lemma follows_chk_free h t : Forall chk_free t -> follows chk_ok h t.
Proof.
  intros H. apply follows_free. eapply Forall_impl; [exact H|].
  intros a Ha p. by destruct a.
Qed.

Lemma drains_chk_free sig q n d : drains sig q n d -> Forall chk_free d.
Proof. induction 1; repeat constructor; done. Qed.

Lemma late_sends_chk_free l : Forall chk_free (late_sends l).
Proof. induction l; simpl; repeat constructor; done. Qed.

Lemma exit_trace_chk_free l f pk c d :
  drained pk c d -> Forall chk_free (exit_trace l f pk d).
Proof.
  intros Hd. apply drains_chk_free in Hd. unfold exit_trace, closing, shutdown.
  pose proof (late_sends_chk_free l).
  destruct (proxyConn f); rewrite ?Forall_app, ?Forall_cons, ?Forall_app;
    repeat split; try done; by repeat constructor.
Qed.

Lemma error_handoff_chk_free f e : Forall chk_free (error_handoff f e).
Proof. unfold error_handoff. destruct (first f); repeat constructor. Qed.

(** The check that precedes the exchange of a pass. *)
Lemma redial_checked o f pc br h r :
  redial o f = returns (pc, br, None) ->
  follows chk_ok h ([a_isClosed false; a_recvRequest r] ++ redial_trace o f) /\
  forall hp op r', chk_ok ((h ++ [a_isClosed false; a_recvRequest r]) ++ redial_trace o f)
                     (a_doRequest pc br hp op r').
Proof.
  unfold redial, redial_trace. destruct (conn_usable o); intros Hr.
  - injection Hr as <- <-. split; [by repeat split|].
    intros hp op r'. left. by eexists.
  - split; [by repeat split|].
    intros hp op r'. right.
    by exists (h ++ [a_isClosed false; a_recvRequest r]), (proxyConn f).
Qed.

Lemma redial_trace_chk_free o f : Forall chk_free (redial_trace o f).
Proof. unfold redial_trace. destruct (conn_usable o); repeat constructor. Qed.

Lemma pass_chk o c f c' st out h : pass o c f c' st out -> follows chk_ok h out.
Proof.
  intros Hp; inversion Hp; subst; clear Hp;
    try match goal with
    | H : redial o f = returns (?pc, ?br, None) |- _ =>
        destruct (redial_checked o f pc br h r H) as [Hpre Hchk]
    end;
    rewrite ?app_assoc;
    repeat (rewrite follows_app; split);
    try done;
    try (apply follows_chk_free;
         eauto using exit_trace_chk_free, error_handoff_chk_free,
                     redial_trace_chk_free; by repeat constructor).
  - split; [exact I|]. apply follows_chk_free. by eapply exit_trace_chk_free.
  - split; [rewrite app_assoc; apply Hchk | by repeat split].
  - split; [rewrite app_assoc; apply Hchk | by repeat split].
  - split; [rewrite app_assoc; apply Hchk | by repeat split].
  - split; [rewrite app_assoc; apply Hchk | by repeat split].
  - split; [rewrite app_assoc; apply Hchk | by repeat split].
Qed.


Lemma entry_chk o c c' st out h : entry o c c' st out -> follows chk_ok h out.
Proof.
  intros He; inversion He; subst; clear He; apply follows_chk_free;
    rewrite ?Forall_app, ?Forall_cons; repeat split; try done;
    eauto using drains_chk_free, late_sends_chk_free; by repeat constructor.
Qed.

Lemma chk_run es addr idle : always chk_ok (trace (run es (boot addr idle))).
Proof.
  cut (wf (run es (boot addr idle)) /\
       always chk_ok (trace (run es (boot addr idle)))); [tauto|].
  apply run_ind; [split; [apply wf_boot | done]|].
  intros s e [Hwf Hal]. split; [by apply wf_step|].
  unfold always in *. destruct e as [r| |o].
  - unfold step, submitRequest.
    destruct (doneRequesting (conn s)), (requestOutCh_closed (conn s));
      cbn [trace]; rewrite follows_app; (split; [done|]); by repeat split.
  - cbn [step trace]. rewrite follows_app. by repeat split.
  - unfold wf in Hwf. destruct (worker s) as [|f|] eqn:Hw.
    + destruct (step_worker_not_started o s Hw ltac:(wf_flag) ltac:(wf_flag)) as (c' & st & out & He & ->).
      cbn [trace]. rewrite follows_app. split; [done | by eapply entry_chk].
    + destruct Hwf as (Hd & ? & ?).
      destruct (step_worker_in_loop o s f Hw Hd ltac:(wf_flag) ltac:(wf_flag)) as (c' & st & out & Hp & ->).
      cbn [trace]. rewrite follows_app. split; [done | by eapply pass_chk].
    + rewrite (step_worker_exited o s Hw). cbn [trace]. by rewrite app_nil_r.
Qed.

(** C7: in every session an exchange comes right after the check of the
    relay connection held by the worker, and, when the check finds it
    unusable, right after a call of the Transport Dialer, whose connection
    and reader the exchange then uses.  When the exchange itself returns an
    error, the worker sends that error as the acknowledgment of the item,
    logs it, and leaves: the request is exchanged once, and nothing is
    exchanged afterwards. *)
Theorem C7_redial_then_terminal_failure es addr idle :
  let s := run es (boot addr idle) in
  (forall p pc br h op r q,
     trace s = p ++ a_doRequest pc br h op r :: q ->
     (exists p', p = p' ++ [a_checkConn pc true]) \/
     (exists p' pc0, p = p' ++ [a_checkConn pc0 false; a_dialProxy])) /\
  (forall o f r c1 pc br rsp e,
     worker s = in_loop f ->
     isClosed_result o = false ->
     select_ready (select_preference o) (conn s) = (sel_request r, c1) ->
     redial o f = returns (pc, br, None) ->
     doRequest_result o = returns (rsp, Some e) ->
     let s' := step (ev_worker o) s in
     let e1 := fmt_Errorf addr (proxyHost f) "Unable to issue write request" e in
     (if conn_usable o then pc = proxyConn f /\ br = bufReader f
      else dialProxy_result o = returns (pc, br, None)) /\
     (exists tail,
        trace s' =
          trace s ++ [a_isClosed false; a_recvRequest r] ++ redial_trace o f ++
          [a_doRequest pc br (proxyHost f) OP_WRITE r;
           a_doRequestDone rsp (Some e); a_requestFinished (Some e);
           a_log (Error e1)] ++ tail /\
        exchanged tail = []) /\
     worker s' = exited /\
     forall es', exchanged (trace (run es' s')) = exchanged (trace s) ++ [r]).
Proof.
  intros s. split.
  - intros p pc br h op r q Ht.
    pose proof (chk_run es addr idle) as Hal. fold s in Hal.
    rewrite always_spec in Hal. exact (Hal _ _ _ Ht).
  - intros o f r c1 pc br rsp e Hw Hcl Hsel Hr Hx s' e1. subst s'.
    pose proof (wf_run es addr idle) as Hwf. fold s in Hwf.
    pose proof (addr_run es addr idle) as Ha. fold s in Ha.
    pose proof (wf_step s (ev_worker o) Hwf) as Hwf'.
    clearbody s. unfold wf in Hwf, Hwf'.
    rewrite Hw in Hwf. destruct Hwf as (Hd & ? & ?).
    assert (Addr c1 = addr) as Ha1.
    { apply select_ready_emptied in Hsel. rewrite <- Ha. by injection Hsel. }
    destruct (step_worker_in_loop o s f Hw Hd ltac:(wf_flag) ltac:(wf_flag)) as (c' & st & out & Hp & Hs').
    rewrite Hs' in *. cbn [worker conn trace] in *.
    split.
    { revert Hr. unfold redial. destruct (conn_usable o); [|done].
      by intros [= <- <-]. }
    clear Hs'. subst e1. pass_inv Hp. rewrite <- Ha1. fold e1.
    destruct Hwf' as (Hdn & _).
    set (tail := error_handoff f e1 ++
                 exit_trace (late_submits o) (answered rsp0 (Some e1) (redialed pc0 br0 None f))
                   None d).
    assert (exchanged tail = []) as Htail.
    { unfold tail, exchanged. rewrite omap_app. fold exchanged.
      rewrite exchanged_error_handoff. by erewrite exchanged_exit_trace by eassumption. }
    split; [by exists tail|]. split; [done|].
    intros es'.
    match goal with
    | |- exchanged (trace (run es' ?s1)) = _ =>
        destruct (exited_quiet es' s1 eq_refl Hdn) as (-> & _ & _)
    end.
    cbn [trace]. unfold exchanged. rewrite !omap_app. fold exchanged.
    rewrite exchanged_redial_trace. fold tail. rewrite Htail. done.
Qed.

(** ** The idle timer *)

(** C8: the [select] of the loop races the timer against [requestOutCh] and
    [stopRequestCh].  A request is taken only from the head of a channel that
    holds one, a stop signal only from a channel that holds one, and each of
    the two is taken when its case is the one chosen; the [select] ends with
    the timer when neither channel holds a value, and the timer runs for the
    configured idle duration.  When the timer fires and [isIdle] holds, the
    worker leaves without any exchange; when it fires and [isIdle] does not
    hold, the worker is back at the head of the loop with the same
    connection and the same variables.  In every session the timer fires
    only while no exchange is in flight. *)
Theorem C8_idle_timer es addr idle :
  let s := run es (boot addr idle) in
  (forall p c, requestOutCh c = [] -> stopRequestCh c = 0 ->
     select_ready p c = (sel_timer, c)) /\
  (forall o f c1,
     worker s = in_loop f ->
     isClosed_result o = false ->
     select_ready (select_preference o) (conn s) = (sel_timer, c1) ->
     let s' := step (ev_worker o) s in
     if isIdle_result o then
       worker s' = exited /\
       exists tail,
         trace s' = trace s ++ [a_isClosed false; a_timer idle; a_isIdle true] ++ tail /\
         exchanged tail = []
     else
       s' = mkSystem (conn s) (in_loop f)
              (trace s ++ [a_isClosed false; a_timer idle; a_isIdle false])) /\
  (forall p d q, trace s = p ++ a_timer d :: q ->
     returned p + faulted p = begun p) /\
  (forall p c sel c1,
     select_ready p c = (sel, c1) ->
     match sel with
     | sel_request r =>
         requestOutCh c = r :: requestOutCh c1 /\
         c1 = set_requestOutCh (requestOutCh c1) c
     | sel_stop =>
         stopRequestCh c = S (stopRequestCh c1) /\
         c1 = set_stopRequestCh (stopRequestCh c1) c
     | sel_timer =>
         c1 = c /\
         (p = prefer_timer \/ (requestOutCh c = [] /\ stopRequestCh c = 0))
     end) /\
  (forall c r q,
     requestOutCh c = r :: q ->
     select_ready prefer_request c = (sel_request r, set_requestOutCh q c) /\
     (stopRequestCh c = 0 ->
      select_ready prefer_stop c = (sel_request r, set_requestOutCh q c))) /\
  (forall c n,
     stopRequestCh c = S n ->
     select_ready prefer_stop c = (sel_stop, set_stopRequestCh n c) /\
     (requestOutCh c = [] ->
      select_ready prefer_request c = (sel_stop, set_stopRequestCh n c))) /\
  (forall o f r q,
     worker s = in_loop f ->
     isClosed_result o = false ->
     requestOutCh (conn s) = r :: q ->
     select_preference o = prefer_request ->
     exists tail,
       trace (step (ev_worker o) s) =
         trace s ++ [a_isClosed false; a_recvRequest r] ++ tail) /\
  (forall o f n,
     worker s = in_loop f ->
     isClosed_result o = false ->
     stopRequestCh (conn s) = S n ->
     select_preference o = prefer_stop ->
     let s' := step (ev_worker o) s in
     worker s' = exited /\
     exists tail,
       trace s' = trace s ++ [a_isClosed false; a_recvStop] ++ tail /\
       exchanged tail = []).
Proof.
  intros s. split; [|split; [|split; [|split; [|split; [|split; [|split]]]]]].
  - intros p c Hq Hn. destruct c as [a i q cl n dn]. simpl in *. subst.
    by destruct p.
  - intros o f c1 Hw Hcl Hsel s'. subst s'.
    pose proof (wf_run es addr idle) as Hwf. fold s in Hwf.
    destruct (config_run es addr idle) as [_ Hidle]. fold s in Hidle.
    clearbody s. unfold wf in Hwf.
    rewrite Hw in Hwf. destruct Hwf as (Hd & ? & ?).
    destruct (step_worker_in_loop o s f Hw Hd ltac:(wf_flag) ltac:(wf_flag)) as (c' & st & out & Hp & Hs').
    rewrite Hs'. clear Hs'.
    pose proof (select_ready_timer _ _ _ Hsel) as ->.
    destruct (isIdle_result o) eqn:Hi; pass_inv Hp.
    split; [done|]. eexists. split; [done|].
    by eapply exchanged_exit_trace.
  - intros p d q Ht.
    destruct (seq_inv_run es addr idle) as (Hal & _). fold s in Hal.
    rewrite always_spec in Hal. exact (Hal _ _ _ Ht).
  - intros p c sel c1.
    destruct c as [a i q cl n dn], p; simpl;
      destruct q as [|r0 q], n as [|n]; simpl; intros [= <- <-]; simpl; auto.
  - intros c r q Hq. destruct c as [a i q0 cl n dn]. simpl in *. subst q0.
    split; [done|]. by intros ->.
  - intros c n Hn. destruct c as [a i q cl n0 dn]. simpl in *. subst n0.
    split; [done|]. by intros ->.
  - intros o f r q Hw Hcl Hq Hpref.
    pose proof (wf_run es addr idle) as Hwf. fold s in Hwf.
    clearbody s. unfold wf in Hwf.
    rewrite Hw in Hwf. destruct Hwf as (Hd & ? & ?).
    destruct (step_worker_in_loop o s f Hw Hd ltac:(wf_flag) ltac:(wf_flag))
      as (c' & st & out & Hp & ->).
    assert (select_ready (select_preference o) (conn s) =
            (sel_request r, set_requestOutCh q (conn s))) as Hsel.
    { rewrite Hpref. destruct (conn s) as [a i q0 cl n dn]. simpl in *. by subst q0. }
    cbn [trace]. pass_inv Hp; by eexists.
  - intros o f n Hw Hcl Hn Hpref s'. subst s'.
    pose proof (wf_run es addr idle) as Hwf. fold s in Hwf.
    clearbody s. unfold wf in Hwf.
    rewrite Hw in Hwf. destruct Hwf as (Hd & ? & ?).
    destruct (step_worker_in_loop o s f Hw Hd ltac:(wf_flag) ltac:(wf_flag))
      as (c' & st & out & Hp & ->).
    assert (select_ready (select_preference o) (conn s) =
            (sel_stop, set_stopRequestCh n (conn s))) as Hsel.
    { rewrite Hpref. destruct (conn s) as [a i q0 cl n0 dn]. simpl in *. by subst n0. }
    cbn [trace worker]. pass_inv Hp.
    split; [done|]. eexists. split; [done|].
    by eapply exchanged_exit_trace.
Qed.


(** ** Writes after the shutdown *)

(** C4: once the worker has left, [doneRequesting] is set and [requestOutCh]
    is closed.  The flag was set once, while the worker held the write lock,
    and the channel was closed after that.  [submitRequest] reads the flag
    while it holds the read lock; from then on every call returns [false]
    and leaves the connection as it is, and no request is enqueued any
    more. *)
Theorem C4_no_writes_after_cleanup es addr idle :
  let s := run es (boot addr idle) in
  worker s = exited ->
  doneRequesting (conn s) = true /\
  requestOutCh_closed (conn s) = true /\
  count is_setDoneRequesting (trace s) = 1 /\
  (forall p q, trace s = p ++ a_setDoneRequesting :: q -> write_locked p) /\
  (forall p q, trace s = p ++ a_closeRequestOutCh :: q ->
     count is_setDoneRequesting p = 1) /\
  (forall p b q, trace s = p ++ a_readDoneRequesting b :: q -> read_locked p) /\
  (forall r, submitRequest r (conn s) =
     (returns false, conn s, [a_rlock; a_readDoneRequesting true; a_runlock])) /\
  (forall es', enqueued (trace (run es' s)) = enqueued (trace s)).
Proof.
  intros s Hw.
  pose proof (wf_run es addr idle) as Hwf. fold s in Hwf. unfold wf in Hwf.
  rewrite Hw in Hwf. destruct Hwf as (Hdn & Hcl).
  destruct (lock_inv_run es addr idle) as (Hal & _ & Hst). fold s in Hal, Hst.
  rewrite Hw in Hst. destruct Hst as [Hs _].
  rewrite always_spec in Hal.
  split; [done|]. split; [done|]. split; [done|].
  split; [|split; [|split; [|split]]].
  - intros p q Ht. by destruct (Hal _ _ _ Ht) as [? _].
  - intros p q Ht. by destruct (Hal _ _ _ Ht) as [? _].
  - intros p b q Ht. by destruct (Hal _ _ _ Ht) as [? _].
  - intros r. unfold submitRequest. by rewrite Hdn.
  - intros es'. destruct (exited_run es' s Hw Hdn) as (_ & _ & _ & d & -> & Hp).
    unfold enqueued. rewrite omap_app, (passive_omap_nil _ d), app_nil_r; try done.
    by intros [].
Qed.

(** ** The pin is handed over once and kept *)

Lemma pin_at_handed h q x l :
  handoffs h = x :: l -> pin_at (h ++ q) = hwr_proxyHost x.
Proof. intros Hh. unfold pin_at, handoffs in *. by rewrite omap_app, Hh. Qed.

Lemma follows_hosts_after h q x l :
  handoffs h = x :: l -> follows pin_ok h q ->
  Forall (fun y => y = hwr_proxyHost x) (hosts q).
Proof.
  revert h l. induction q as [|a q IH]; intros h l Hh Hf; [constructor|].
  destruct Hf as [Ha Hq].
  assert (handoffs (h ++ [a]) = x :: l ++ handoffs [a]) as Hh'
    by (unfold handoffs in *; by rewrite omap_app, Hh).
  specialize (IH _ _ Hh' Hq).
  destruct a; try exact IH. simpl in Ha. unfold hosts. simpl.
  constructor; [|exact IH]. rewrite Ha. unfold pin_at. by rewrite Hh.
Qed.

Lemma follows_hosts_before h p :
  handoffs (h ++ p) = [] -> follows pin_ok h p ->
  Forall (fun y => y = "") (hosts p).
Proof.
  revert h. induction p as [|a p IH]; intros h Hh Hf; [constructor|].
  destruct Hf as [Ha Hp].
  assert (handoffs h = []) as Hh0.
  { unfold handoffs in *. rewrite omap_app in Hh. by apply app_eq_nil in Hh as [? _]. }
  assert (handoffs ((h ++ [a]) ++ p) = []) as Hh' by (by rewrite <- app_assoc).
  specialize (IH _ Hh' Hp).
  destruct a; try exact IH. simpl in Ha. unfold hosts. simpl.
  constructor; [|exact IH]. rewrite Ha. unfold pin_at. by rewrite Hh0.
Qed.

(** C5: when the first exchange of a session succeeds, the worker reads the
    pin from the header [X_ENPROXY_PROXY_HOST] of the response and sends it
    on [initialResponseCh] together with the response; it is the only value
    sent there.  In every session the exchanges made before that handoff
    carry the empty pin and all the exchanges made after it carry the pin
    handed over; the worker's [proxyHost] never changes once it is set. *)
Theorem C5_pin_handed_once_and_kept es addr idle :
  let s := run es (boot addr idle) in
  (forall o f r c1 pc br rsp,
     worker s = in_loop f -> first f = true ->
     isClosed_result o = false ->
     select_ready (select_preference o) (conn s) = (sel_request r, c1) ->
     redial o f = returns (pc, br, None) ->
     doRequest_result o = returns (Some rsp, None) ->
     let s' := step (ev_worker o) s in
     let pin := Header_Get (Header rsp) X_ENPROXY_PROXY_HOST in
     (exists f', worker s' = in_loop f' /\ proxyHost f' = pin /\ first f' = false) /\
     trace s' =
       trace s ++ [a_isClosed false; a_recvRequest r] ++ redial_trace o f ++
       [a_doRequest pc br "" OP_WRITE r; a_doRequestDone (Some rsp) None;
        a_requestFinished None;
        a_initialResponse (mkHostWithResponse pin (Some rsp) None)] /\
     handoffs (trace s') = [mkHostWithResponse pin (Some rsp) None]) /\
  (forall p pin rsp q,
     trace s = p ++ a_initialResponse (mkHostWithResponse pin (Some rsp) None) :: q ->
     pin = Header_Get (Header rsp) X_ENPROXY_PROXY_HOST /\
     Forall (fun h => h = "") (hosts p) /\
     Forall (fun h => h = pin) (hosts q)) /\
  (forall f es' f',
     worker s = in_loop f -> first f = false ->
     worker (run es' s) = in_loop f' ->
     proxyHost f' = proxyHost f /\ first f' = false).
Proof.
  intros s. split; [|split].
  - intros o f r c1 pc br rsp Hw Hf Hcl Hsel Hr Hx s' pin. subst s'.
    pose proof (wf_run es addr idle) as Hwf. fold s in Hwf.
    pose proof (pin_inv_run es addr idle) as [_ Hpin]. fold s in Hpin.
    clearbody s. unfold wf in Hwf.
    rewrite Hw in Hwf. destruct Hwf as (Hd & ? & ?).
    rewrite Hw, Hf in Hpin. destruct Hpin as [Hh Hhost].
    destruct (step_worker_in_loop o s f Hw Hd ltac:(wf_flag) ltac:(wf_flag)) as (c' & st & out & Hp & Hs').
    rewrite Hs'. clear Hs'. cbn [worker trace]. subst pin.
    pass_inv Hp. subst pin. rewrite Hhost. split; [|split].
    + eexists. split; [done|]. by split.
    + done.
    + unfold handoffs in *. rewrite !omap_app, Hh. fold handoffs.
      by rewrite handoffs_redial_trace.
  - intros p pin rsp q Ht.
    destruct (pin_inv_run es addr idle) as (Hal & _). fold s in Hal.
    rewrite Ht in Hal. unfold always in Hal. rewrite follows_app in Hal.
    destruct Hal as [Hp [[Hh Hpin] Hq]]. simpl in Hp, Hh, Hpin, Hq.
    split; [done|]. split.
    + apply (follows_hosts_before [] p); by simpl.
    + apply (follows_hosts_after
               (p ++ [a_initialResponse (mkHostWithResponse pin (Some rsp) None)])
               q (mkHostWithResponse pin (Some rsp) None) []); [|done].
      unfold handoffs in *. by rewrite omap_app, Hh.
  - intros f es' f' Hw Hf Hw'.
    destruct (pin_inv_run es addr idle) as (_ & Hpin). fold s in Hpin.
    rewrite Hw, Hf in Hpin. destruct Hpin as [r0 Hh].
    destruct (pin_inv_run (es ++ es') addr idle) as (_ & Hpin').
    rewrite run_app in Hpin'. fold s in Hpin'. rewrite Hw' in Hpin'.
    destruct (trace_extends es' s) as [d Hd]. rewrite Hd in Hpin'.
    unfold handoffs in *. rewrite omap_app, Hh in Hpin'.
    destruct (first f'); [by destruct Hpin'|].
    destruct Hpin' as [r1 Heq]. by injection Heq as ->.
Qed.

(** ** Where the code falls short *)

Lemma acks_length t : length (acks t) = acked t.
Proof.
  unfold acks, acked. induction t as [|a t IH]; [done|].
  destruct a; simpl; rewrite <- ?IH; done.
Qed.



Definition is_cleanup (a : action) : bool :=
  match a with a_cleanup _ _ => true | _ => false end.

(** The cleanup is called without a response, and no body is closed once it
    has been called. *)
Definition nil_ok (p : list action) (a : action) : Prop :=
  match a with
  | a_cleanup rsp _ => rsp = None
  | a_bodyClose _ => count is_cleanup p = 0
  | _ => True
  end.

Definition nil_free (a : action) : Prop :=
  match a with
  | a_cleanup _ _ | a_bodyClose _ => False
  | _ => True
  end.

Lemma follows_nil_free h t : Forall nil_free t -> follows nil_ok h t.
Proof.
  intros H. apply follows_free. eapply Forall_impl; [exact H|].
  intros a Ha p. by destruct a.
Qed.

Lemma count_nil_free t : Forall nil_free t -> count is_cleanup t = 0.
Proof.
  intros H. apply count_zero. eapply Forall_impl; [exact H|]. by intros [].
Qed.

Lemma drains_nil_free sig q n d : drains sig q n d -> Forall nil_free d.
Proof. induction 1; repeat constructor; done. Qed.

Lemma late_sends_nil_free l : Forall nil_free (late_sends l).
Proof. induction l; simpl; repeat constructor; done. Qed.

Lemma exit_trace_nil_ok l f pk c d h :
  drained pk c d -> follows nil_ok h (exit_trace l f pk d).
Proof.
  intros Hd. apply drains_nil_free in Hd. unfold exit_trace.
  rewrite follows_app. split.
  - apply follows_nil_free. unfold closing. destruct (proxyConn f); by repeat constructor.
  - split; [done|]. apply follows_nil_free. rewrite !Forall_app.
    split; [done|]. split; [apply late_sends_nil_free | by repeat constructor].
Qed.

Lemma redial_trace_nil_free o f : Forall nil_free (redial_trace o f).
Proof. unfold redial_trace. destruct (conn_usable o); repeat constructor. Qed.

Lemma error_handoff_nil_free f e : Forall nil_free (error_handoff f e).
Proof. unfold error_handoff. destruct (first f); repeat constructor. Qed.

(** The body of a pass: free of cleanup, and closing a body only when no
    cleanup came before. *)
Lemma pass_nil o c f c' st out h :
  count is_cleanup h = 0 ->
  pass o c f c' st out ->
  follows nil_ok h out /\
  match st with exited => True | _ => count is_cleanup (h ++ out) = 0 end.
Proof.
  intros Hh Hp.
  pose proof (redial_trace_nil_free o f) as Hrt.
  pose proof (count_nil_free _ Hrt) as Hrc.
  inversion Hp; subst; clear Hp; (split; [|try exact I]).
  all: rewrite ?app_assoc.
  all: try (rewrite follows_app; split; [|by eapply exit_trace_nil_ok]).
  all: try (apply follows_nil_free; rewrite ?Forall_app; repeat split;
            auto using error_handoff_nil_free; by repeat constructor).
  - split; [exact I|]. by eapply exit_trace_nil_ok.
  - rewrite !count_app, Hh. done.
  - rewrite !count_app, Hh, Hrc. done.
  - rewrite follows_app. split.
    + apply follows_nil_free. rewrite Forall_app. split; [by repeat constructor | done].
    + cbn [follows nil_ok]. rewrite !count_app, Hh, Hrc. by repeat split.
  - rewrite !count_app, Hh, Hrc. done.
Qed.

Lemma entry_nil o c c' st out h :
  count is_cleanup h = 0 ->
  entry o c c' st out ->
  follows nil_ok h out /\
  match st with exited => True | _ => count is_cleanup (h ++ out) = 0 end.
Proof.
  intros Hh He. inversion He; subst; clear He; (split; [|try exact I]).
  - unfold drained in *. cbn [app follows]. repeat (split; [done|]).
    apply follows_nil_free.
    rewrite !Forall_app. split; [by eapply drains_nil_free|].
    split; [apply late_sends_nil_free | by repeat constructor].
  - unfold drained in *. cbn [app follows]. repeat (split; [done|]).
    apply follows_nil_free.
    rewrite !Forall_app. split; [by eapply drains_nil_free|].
    split; [apply late_sends_nil_free | by repeat constructor].
  - by repeat split.
  - rewrite count_app, Hh. done.
Qed.

Definition nil_inv (s : system) : Prop :=
  always nil_ok (trace s) /\
  match worker s with
  | exited => True
  | _ => count is_cleanup (trace s) = 0
  end.

Lemma nil_inv_run es addr idle : nil_inv (run es (boot addr idle)).
Proof.
  cut (wf (run es (boot addr idle)) /\ nil_inv (run es (boot addr idle))); [tauto|].
  apply run_ind; [split; [apply wf_boot | by split]|].
  intros s e [Hwf [Hal Hst]]. split; [by apply wf_step|].
  unfold nil_inv, always in *. destruct e as [r| |o].
  - assert (exists d, step (ev_submit r) s = mkSystem (conn (step (ev_submit r) s))
                        (worker s) (trace s ++ d) /\ Forall nil_free d)
      as (d & -> & Hd).
    { unfold step, submitRequest.
      destruct (doneRequesting (conn s)), (requestOutCh_closed (conn s));
        eexists; (split; [reflexivity|]); by repeat constructor. }
    cbn [trace worker]. rewrite follows_app, count_app, (count_nil_free d Hd).
    split; [split; [done | by apply follows_nil_free]|].
    destruct (worker s); rewrite ?Hst; done.
  - cbn [step trace worker]. rewrite follows_app, count_app. simpl.
    split; [by repeat split|]. destruct (worker s); rewrite ?Hst; done.
  - unfold wf in Hwf. destruct (worker s) as [|f|] eqn:Hw.
    + destruct (step_worker_not_started o s Hw ltac:(wf_flag) ltac:(wf_flag)) as (c' & st & out & He & ->).
      cbn [trace worker]. rewrite follows_app.
      destruct (entry_nil _ _ _ _ _ (trace s) Hst He) as [H1 H2].
      split; [by split|]. by destruct st.
    + destruct Hwf as (Hd & ? & ?).
      destruct (step_worker_in_loop o s f Hw Hd ltac:(wf_flag) ltac:(wf_flag)) as (c' & st & out & Hp & ->).
      cbn [trace worker]. rewrite follows_app.
      destruct (pass_nil _ _ _ _ _ _ (trace s) Hst Hp) as [H1 H2].
      split; [by split|]. by destruct st.
    + rewrite (step_worker_exited o s Hw). cbn [trace worker].
      by rewrite app_nil_r.
Qed.

(** C9: the cleanup does not get the response the worker holds.  The argument
    of the deferred [cleanupAfterRequests(resp)] is evaluated when the [defer]
    statement runs, at the top of [processRequests], where [resp] is still
    nil: in every session the cleanup is called with no response, and no
    response body is closed once the cleanup has been called.  The relay
    connection is closed by the deferred closure before the cleanup. *)
Theorem C9_cleanup_is_called_with_nil es addr idle :
  let s := run es (boot addr idle) in
  (forall p rsp pk q, trace s = p ++ a_cleanup rsp pk :: q -> rsp = None) /\
  (forall p rsp q, trace s = p ++ a_bodyClose rsp :: q -> count is_cleanup p = 0) /\
  (forall o f pc,
     worker s = in_loop f -> proxyConn f = Some pc ->
     isClosed_result o = true ->
     exists d, trace (step (ev_worker o) s) =
       trace s ++ [a_isClosed true; a_proxyConnClose pc; a_cleanup None None] ++
       d ++ shutdown None).
Proof.
  intros s. destruct (nil_inv_run es addr idle) as [Hal _]. fold s in Hal.
  rewrite always_spec in Hal. split; [|split].
  - intros p rsp pk q Ht. exact (Hal _ _ _ Ht).
  - intros p rsp q Ht. exact (Hal _ _ _ Ht).
  - intros o f pc Hw Hpc Hcl.
    pose proof (wf_run es addr idle) as Hwf. fold s in Hwf.
    clearbody s. unfold wf in Hwf. rewrite Hw in Hwf. destruct Hwf as (Hd & ? & ?).
    destruct (step_worker_in_loop o s f Hw Hd ltac:(wf_flag) ltac:(wf_flag)) as (c' & st & out & Hp & ->).
    pass_inv Hp. exists (d ++ late_sends (late_submits o)). cbn [trace].
    unfold exit_trace, closing. by rewrite Hpc, <- !app_assoc.
Qed.

Lemma exchanged_length t : length (exchanged t) = begun t.
Proof.
  unfold exchanged, begun. induction t as [|a t IH]; [done|].
  destruct a; simpl; rewrite <- ?IH; done.
Qed.

(** C10: an item taken from [requestOutCh] is not always acknowledged.  When
    the redial that precedes its exchange fails, the worker returns before
    the send on [requestFinishedCh]: the requests drained by the cleanup get
    their [io.EOF], the item that was taken gets nothing, and from then on
    the items received outnumber the acknowledgments by one. *)
Theorem C10_redial_failure_leaves_item_unacknowledged
    es addr idle o f r c1 pc br e :
  let s := run es (boot addr idle) in
  let s' := step (ev_worker o) s in
  worker s = in_loop f ->
  isClosed_result o = false ->
  select_ready (select_preference o) (conn s) = (sel_request r, c1) ->
  redial o f = returns (pc, br, Some e) ->
  length (received (trace s)) = acked (trace s) /\
  received (trace s') = received (trace s) ++ r :: requestOutCh c1 /\
  acks (trace s') = acks (trace s) ++ ((fun _ => Some io_EOF) <$> requestOutCh c1) /\
  forall es', length (received (trace (run es' s'))) =
              S (acked (trace (run es' s'))).
Proof.
  intros s s' Hw Hcl Hsel Hr. subst s'.
  pose proof (wf_run es addr idle) as Hwf. fold s in Hwf.
  pose proof (seq_inv_run es addr idle) as (_ & _ & _ & Hseq). fold s in Hseq.
  pose proof (wf_step s (ev_worker o) Hwf) as Hwf'.
  clearbody s. unfold wf in Hwf, Hwf'.
  rewrite Hw in Hwf, Hseq. destruct Hwf as (Hd & ? & ?).
  destruct Hseq as (_ & _ & Hack & Hx).
  assert (length (received (trace s)) = acked (trace s)) as Hbefore
    by (by rewrite <- Hx, exchanged_length).
  destruct (step_worker_in_loop o s f Hw Hd ltac:(wf_flag) ltac:(wf_flag)) as (c' & st & out & Hp & Hs').
  rewrite Hs' in *. clear Hs'. cbn [worker conn trace] in *.
  pass_inv Hp. destruct Hwf' as (Hdn & _).
  match goal with H : drained _ _ _ |- _ => rename H into Hdr end.
  unfold drained in Hdr. simpl in Hdr.
  assert (received (trace s ++ [a_isClosed false; a_recvRequest r0] ++
            redial_trace o f ++ [a_log (Error e1)] ++ error_handoff f e1 ++
            exit_trace (late_submits o) (redialed pc0 br0 (Some e1) f) None d) =
          received (trace s) ++ r0 :: requestOutCh c0) as Hrecv.
  { unfold received, exit_trace. rewrite !omap_app. fold received.
    rewrite received_redial_trace, received_error_handoff, received_closing.
    simpl. unfold received. rewrite !omap_app. fold received.
    rewrite (late_sends_omap_nil _ req_received) by done.
    by rewrite (drains_received _ _ _ _ Hdr), !app_nil_r. }
  assert (acks (trace s ++ [a_isClosed false; a_recvRequest r0] ++
            redial_trace o f ++ [a_log (Error e1)] ++ error_handoff f e1 ++
            exit_trace (late_submits o) (redialed pc0 br0 (Some e1) f) None d) =
          acks (trace s) ++ ((fun _ => Some io_EOF) <$> requestOutCh c0)) as Hacks.
  { unfold acks, exit_trace, closing, redial_trace, error_handoff.
    rewrite !omap_app. fold acks.
    destruct (conn_usable o), (first f), pc0; simpl;
      unfold acks; rewrite ?omap_app; fold acks;
      rewrite (late_sends_omap_nil _ ack_of) by done;
      by rewrite (drains_acks _ _ _ _ Hdr), !app_nil_r. }
  split; [done|]. split; [done|]. split; [done|].
  intros es'.
  match goal with
  | |- context [run es' ?s1] =>
      destruct (exited_run es' s1 eq_refl Hdn) as (_ & _ & _ & d' & -> & Hpas)
  end.
  cbn [trace].
  assert (received d' = []) as Hr' by (apply passive_omap_nil; [by intros []|done]).
  assert (acks d' = []) as Ha' by (apply passive_omap_nil; [by intros []|done]).
  match goal with
  | |- length (received (?T ++ d')) = _ =>
      assert (received (T ++ d') = received T) as ->
        by (unfold received in *; by rewrite omap_app, Hr', app_nil_r);
      assert (acks (T ++ d') = acks T) as Hsame
        by (unfold acks in *; by rewrite omap_app, Ha', app_nil_r)
  end.
  rewrite <- (acks_length (_ ++ d')), Hsame, Hrecv, Hacks.
  rewrite !length_app, length_fmap. simpl. rewrite acks_length. lia.
Qed.


(** * Further properties of the worker *)

(** ** Requests are neither lost nor invented *)

(** X1: the requests sent into [requestOutCh] by [submitRequest] are, in
    order, the requests the worker has taken out followed by the requests
    still in the channel: none is lost, duplicated or reordered.  While the
    worker is in its loop every request it has taken out has been
    exchanged. *)
Theorem X1_requests_conserved es addr idle :
  let s := run es (boot addr idle) in
  received (trace s) ++ requestOutCh (conn s) = enqueued (trace s) /\
  exchanged (trace s) `prefix_of` received (trace s) /\
  (forall f, worker s = in_loop f -> exchanged (trace s) = received (trace s)).
Proof.
  intros s. destruct (seq_inv_run es addr idle) as (_ & Hq & Hpre & Hst).
  fold s in Hq, Hpre, Hst.
  split; [exact Hq|]. split; [exact Hpre|].
  intros f Hw. rewrite Hw in Hst. by destruct Hst as (_ & _ & _ & ?).
Qed.


(** ** The handoff is one-shot *)

Lemma pin_ok_one_handoff t : always pin_ok t -> length (handoffs t) <= 1.
Proof.
  induction t as [|a t IH] using rev_ind; [simpl; lia|].
  intros Hal. specialize (IH (always_app_l _ _ _ Hal)).
  unfold always in Hal. rewrite follows_app in Hal. destruct Hal as [_ [Ha _]].
  simpl in Ha. unfold handoffs in *. rewrite omap_app, length_app.
  destruct a; simpl in *; try lia.
  destruct Ha as [Ha _]. unfold handoffs in Ha. rewrite Ha. simpl. lia.
Qed.

(** X3: in a session at most one value is ever sent on [initialResponseCh],
    and a value that carries a response carries the pin read from that
    response and no error. *)
Theorem X3_initial_response_sent_at_most_once es addr idle :
  let t := trace (run es (boot addr idle)) in
  length (handoffs t) <= 1 /\
  (forall h, h ∈ handoffs t ->
     match hwr_resp h, hwr_err h with
     | Some r, None => hwr_proxyHost h = Header_Get (Header r) X_ENPROXY_PROXY_HOST
     | None, Some _ => hwr_proxyHost h = ""
     | _, _ => False
     end).
Proof.
  intros t. destruct (pin_inv_run es addr idle) as [Hal _]. fold t in Hal.
  split; [by apply pin_ok_one_handoff|].
  intros h Hh. unfold handoffs in Hh. apply list_elem_of_omap in Hh as (a & Ha & Hah).
  apply list_elem_of_split in Ha as (p & q & Ht).
  rewrite always_spec in Hal. specialize (Hal _ _ _ Ht).
  destruct a; simpl in Hah; try discriminate. injection Hah as ->.
  by destruct Hal as [_ ?].
Qed.

(** ** Induction over the traces of a session *)

(** A property of the worker's state and of the trace holds all along a
    session when it holds at the start, is kept by the actions of the other
    goroutines, and is kept by the entry of [processRequests] and by every
    pass of its loop. *)
Lemma session_ind (P : status -> list action -> Prop) addr idle :
  P not_started [] ->
  (forall st t d, P st t -> Forall outside d -> P st (t ++ d)) ->
  (forall o c c' st out t,
     P not_started t -> entry o c c' st out -> P st (t ++ out)) ->
  (forall o c f c' st out t,
     P (in_loop f) t -> pass o c f c' st out -> P st (t ++ out)) ->
  forall es,
    P (worker (run es (boot addr idle))) (trace (run es (boot addr idle))).
Proof.
  intros H0 Hout Hentry Hpass es.
  cut (wf (run es (boot addr idle)) /\
       P (worker (run es (boot addr idle))) (trace (run es (boot addr idle))));
    [tauto|].
  apply (run_ind (fun s => wf s /\ P (worker s) (trace s)));
    [split; [apply wf_boot | exact H0]|].
  intros s e [Hwf HP]. split; [by apply wf_step|].
  destruct e as [r| |o].
  - assert (worker (step (ev_submit r) s) = worker s) as ->
      by (unfold step; by destruct (submitRequest r (conn s)) as [[??]?]).
    destruct (doneRequesting (conn s)) eqn:Hdn.
    + rewrite (step_submit_done _ _ Hdn). cbn [trace].
      apply Hout; [done | by repeat constructor].
    + assert (requestOutCh_closed (conn s) = false) as Hcl.
      { unfold wf in Hwf.
        destruct (worker s); [tauto | tauto | destruct Hwf; congruence]. }
      rewrite (step_submit_open _ _ Hdn Hcl). cbn [trace].
      apply Hout; [done | by repeat constructor].
  - cbn [step trace worker]. apply Hout; [done | by repeat constructor].
  - destruct (worker s) as [|f|] eqn:Hw.
    + destruct (step_worker_not_started o s Hw ltac:(wf_flag) ltac:(wf_flag)) as (c' & st & out & He & ->).
      cbn [trace worker]. by eapply Hentry.
    + unfold wf in Hwf. rewrite Hw in Hwf. destruct Hwf as (Hd & ? & ?).
      destruct (step_worker_in_loop o s f Hw Hd ltac:(wf_flag) ltac:(wf_flag))
        as (c' & st & out & Hp & ->).
      cbn [trace worker]. by eapply Hpass.
    + rewrite (step_worker_exited o s Hw). cbn [trace worker].
      by rewrite app_nil_r.
Qed.

(** ** Acknowledgments *)


(** ** What becomes of the responses *)

(** The responses of the exchanges that succeeded, the responses sent on
    [initialResponseCh], and the responses whose body the worker closed. *)
Definition response_of (a : action) : option Response :=
  match a with a_doRequestDone (Some r) None => Some r | _ => None end.

Definition handed_of (a : action) : option Response :=
  match a with a_initialResponse h => hwr_resp h | _ => None end.

Definition closed_of (a : action) : option Response :=
  match a with a_bodyClose r => Some r | _ => None end.

Definition responses : list action -> list Response := omap response_of.
Definition handed : list action -> list Response := omap handed_of.
Definition closed : list action -> list Response := omap closed_of.

Ltac resp_unfold :=
  unfold responses, handed, closed, exit_trace, closing, shutdown,
         redial_trace, error_handoff, drained in *.

Lemma late_sends_responses l :
  responses (late_sends l) = [] /\ handed (late_sends l) = [] /\
  closed (late_sends l) = [].
Proof.
  unfold responses, handed, closed.
  repeat split; by apply late_sends_omap_nil.
Qed.

Lemma drains_responses sig q n d :
  drains sig q n d -> responses d = [] /\ handed d = [] /\ closed d = [].
Proof.
  intros H. unfold responses, handed, closed.
  repeat split; by apply (drains_omap_nil sig q n).
Qed.

(** Brings the facts about the drain and about the late calls of
    [submitRequest] into the context. *)
Ltac resp_drain :=
  unfold exit_trace in *;
  repeat match goal with
  | H : drained _ _ _ |- _ =>
      apply drains_responses in H; destruct H as (? & ? & ?)
  end;
  repeat match goal with
  | |- context [late_sends ?l] =>
      let H1 := fresh in
      pose proof (late_sends_responses l) as H1;
      destruct H1 as (? & ? & ?);
      let ls := fresh "ls" in
      let E := fresh in
      remember (late_sends l) as ls eqn:E; clear E
  end.

(** X5: of the responses of the exchanges that returned without error, the
    first is the one sent on [initialResponseCh] and is not closed by the
    worker; the later ones are, in order, exactly the responses whose body
    the worker closes. *)
Theorem X5_first_response_handed_later_ones_closed es addr idle :
  let t := trace (run es (boot addr idle)) in
  handed t = take 1 (responses t) /\ closed t = drop 1 (responses t).
Proof.
  intros t.
  cut (handed t = take 1 (responses t) /\ closed t = drop 1 (responses t) /\
       match worker (run es (boot addr idle)) with
       | not_started => responses t = []
       | in_loop f => if first f then responses t = [] else responses t <> []
       | exited => True
       end); [tauto|].
  subst t.
  apply (session_ind (fun st t =>
    handed t = take 1 (responses t) /\ closed t = drop 1 (responses t) /\
    match st with
    | not_started => responses t = []
    | in_loop f => if first f then responses t = [] else responses t <> []
    | exited => True
    end)).
  - done.
  - intros st t d (Hh & Hc & Hst) Hd. unfold responses, handed, closed in *.
    rewrite !omap_app.
    rewrite !(outside_omap_nil _ d), !app_nil_r; try done; by intros [].
  - intros o c c' st out t (Hh & Hc & Hst) He.
    unfold responses, handed, closed in Hh, Hc, Hst.
    rewrite Hst in Hh, Hc. simpl in Hh, Hc.
    inversion He; subst; clear He; resp_drain;
      resp_unfold; rewrite ?omap_app in *; simpl;
      rewrite ?omap_app; simpl;
      repeat match goal with
      | H : omap _ ?d = [] |- _ => is_var d; rewrite ?H; clear H
      end;
      rewrite ?app_nil_r; done.
  - intros o c f c' st out t (Hh & Hc & Hst) Hp.
    unfold responses, handed, closed in Hh, Hc, Hst.
    assert (first f = true ->
            omap handed_of t = [] /\ omap closed_of t = [] /\
            omap response_of t = []) as Htrue.
    { intros E. rewrite E in Hst. rewrite Hst in Hh, Hc. done. }
    inversion Hp; subst; clear Hp; resp_drain;
      resp_unfold;
      repeat match goal with
      | |- context [if conn_usable ?o then _ else _] => destruct (conn_usable o)
      | |- context [match proxyConn ?f with _ => _ end] => destruct (proxyConn f)
      | |- context [a_doRequestDone ?rsp (Some _)] => is_var rsp; destruct rsp
      | |- context [if first ?f then [_] else _] => destruct (first f) eqn:?
      end;
      rewrite ?omap_app in *; simpl; rewrite ?omap_app; simpl;
      repeat match goal with
      | H : omap _ ?d = [] |- _ => is_var d; rewrite ?H; clear H
      end;
      rewrite ?app_nil_r; try done.
    all: try (destruct Htrue as (Ea & Eb & Ec);
              [first [assumption | reflexivity]|];
              rewrite ?Ea, ?Eb, ?Ec; done).
    all: match goal with E : first _ = false |- _ => rewrite E in * end.
    all: match goal with
         | |- context [omap response_of ?t] =>
             destruct (omap response_of t) as [|r0 l]; [done|]
         end.
    all: simpl in *; rewrite Hh, Hc; by rewrite ?drop_0.
Qed.

(** ** Logging and the deferred closure *)

Definition is_log (a : action) : bool :=
  match a with a_log _ => true | _ => false end.

Definition is_proxyConnClose (a : action) : bool :=
  match a with a_proxyConnClose _ => true | _ => false end.

Lemma drains_quiet sig q n d :
  drains sig q n d -> count is_log d = 0 /\ count is_proxyConnClose d = 0.
Proof. intros H. split; by apply (drains_count0 sig q n). Qed.

Lemma late_sends_quiet l :
  count is_log (late_sends l) = 0 /\ count is_proxyConnClose (late_sends l) = 0.
Proof. split; by apply late_sends_count0. Qed.

Ltac quiet_step :=
  unfold exit_trace in *;
  repeat match goal with
  | H : drained _ _ _ |- _ => apply drains_quiet in H; destruct H as (? & ?)
  end;
  repeat match goal with
  | |- context [late_sends ?l] =>
      let H1 := fresh in
      pose proof (late_sends_quiet l) as H1;
      destruct H1 as (? & ?);
      let ls := fresh "ls" in
      let E := fresh in
      remember (late_sends l) as ls eqn:E; clear E
  end;
  unfold exit_trace, closing, shutdown, redial_trace, error_handoff;
  repeat match goal with
  | |- context [if ?b then _ else _] => destruct b
  | |- context [match proxyConn ?f with _ => _ end] => destruct (proxyConn f)
  | |- context [match redialed ?a ?b ?c ?f with _ => _ end] => unfold redialed
  end;
  rewrite ?count_app; simpl; rewrite ?count_app; simpl; lia.

(** X6: the worker writes at most one message to the log in a session, and
    only in the step in which it leaves. *)
Theorem X6_logs_once_when_leaving es addr idle :
  let s := run es (boot addr idle) in
  count is_log (trace s) <= 1 /\
  (worker s <> exited -> count is_log (trace s) = 0).
Proof.
  intros s.
  cut (match worker s with
       | exited => count is_log (trace s) <= 1
       | _ => count is_log (trace s) = 0
       end).
  { destruct (worker s); intros H; (split; [lia | done]). }
  subst s.
  apply (session_ind (fun st t =>
    match st with
    | exited => count is_log t <= 1
    | _ => count is_log t = 0
    end)).
  - done.
  - intros st t d H Hd. rewrite count_app, (outside_count0 _ d);
      [by rewrite Nat.add_0_r | by intros [] | done].
  - intros o c c' st out t H He. rewrite count_app.
    inversion He; subst; clear He; quiet_step.
  - intros o c f c' st out t H Hp. rewrite count_app.
    inversion Hp; subst; clear Hp; quiet_step.
Qed.

(** X7: the deferred closure closes a relay connection at most once in a
    session, and only in the step in which the worker leaves.  When the dial
    at the entry of [processRequests] returns an error the closure has not
    been deferred yet: no connection is ever closed, not even one that
    [dialProxy] returned together with the error. *)
Theorem X7_closure_runs_once_when_leaving es addr idle :
  let s := run es (boot addr idle) in
  count is_proxyConnClose (trace s) <= 1 /\
  (worker s <> exited -> count is_proxyConnClose (trace s) = 0) /\
  (forall o pc br e es',
     worker s = not_started ->
     dialProxy_result o = returns (pc, br, Some e) ->
     count is_proxyConnClose (trace (run es' (step (ev_worker o) s))) = 0).
Proof.
  intros s.
  assert (match worker s with
          | exited => count is_proxyConnClose (trace s) <= 1
          | _ => count is_proxyConnClose (trace s) = 0
          end) as Hinv.
  { subst s.
    apply (session_ind (fun st t =>
      match st with
      | exited => count is_proxyConnClose t <= 1
      | _ => count is_proxyConnClose t = 0
      end)).
    - done.
    - intros st t d H Hd. rewrite count_app, (outside_count0 _ d);
        [by rewrite Nat.add_0_r | by intros [] | done].
    - intros o c c' st out t H He. rewrite count_app.
      inversion He; subst; clear He; quiet_step.
    - intros o c f c' st out t H Hp. rewrite count_app.
      inversion Hp; subst; clear Hp; quiet_step. }
  split; [destruct (worker s); lia|].
  split; [by destruct (worker s)|].
  intros o pc br e es' Hw Hdial.
  pose proof (wf_run es addr idle) as Hwf. fold s in Hwf.
  pose proof (wf_step s (ev_worker o) Hwf) as Hwf'.
  rewrite Hw in Hinv. clearbody s.
  destruct (step_worker_not_started o s Hw ltac:(wf_flag) ltac:(wf_flag))
    as (c' & st & out & He & Hs').
  rewrite Hs' in *. clear Hs'.
  inversion He; subst; try congruence. clear He.
  unfold wf in Hwf'. cbn [worker conn] in Hwf'. destruct Hwf' as (Hdn & _).
  match goal with
  | |- context [run es' ?s1] =>
      destruct (exited_run es' s1 eq_refl Hdn) as (_ & _ & _ & d' & -> & Hpas)
  end.
  cbn [trace]. rewrite !count_app, Hinv.
  rewrite (passive_count0 _ d') by (done || by intros []).
  match goal with H : drained _ _ _ |- _ => apply drains_quiet in H as [_ ->] end.
  destruct (late_sends_quiet (late_submits o)) as [_ ->]. done.
Qed.

(** X8: when [doRequest] returns neither a response nor an error, the worker
    has already sent the acknowledgment [nil] for the request when it
    dereferences the missing response.  The fault ends the worker; the
    cleanup recovers it and acknowledges the requests still in the channel
    with [io.ErrUnexpectedEOF].  Nothing is sent on [initialResponseCh], even
    on the first exchange, and nothing is logged. *)
Theorem X8_nil_response_faults_after_acknowledging
    es addr idle o f r c1 pc br :
  let s := run es (boot addr idle) in
  let s' := step (ev_worker o) s in
  worker s = in_loop f ->
  isClosed_result o = false ->
  select_ready (select_preference o) (conn s) = (sel_request r, c1) ->
  redial o f = returns (pc, br, None) ->
  doRequest_result o = returns (None, None) ->
  worker s' = exited /\
  acks (trace s') =
    acks (trace s) ++ None :: ((fun _ => Some io_ErrUnexpectedEOF) <$> requestOutCh c1) /\
  panics_in (trace s') = panics_in (trace s) ++ [nil_dereference] /\
  handoffs (trace s') = handoffs (trace s) /\
  count is_log (trace s') = count is_log (trace s).
Proof.
  intros s s' Hw Hcl Hsel Hr Hx. subst s'.
  pose proof (wf_run es addr idle) as Hwf. fold s in Hwf.
  clearbody s. unfold wf in Hwf.
  rewrite Hw in Hwf. destruct Hwf as (Hd & ? & ?).
  destruct (step_worker_in_loop o s f Hw Hd ltac:(wf_flag) ltac:(wf_flag))
    as (c' & st & out & Hp & Hs').
  rewrite Hs'. clear Hs'. cbn [worker trace].
  pass_inv Hp.
  match goal with H : drained _ _ _ |- _ => rename H into Hdr end.
  unfold drained in Hdr. simpl in Hdr.
  pose proof (drains_acks _ _ _ _ Hdr) as Hda.
  pose proof (drains_handoffs _ _ _ _ Hdr) as Hdh.
  assert (omap panic_of d = []) as Hdp by (by apply (drains_omap_nil _ _ _ _ panic_of) in Hdr).
  pose proof (drains_quiet _ _ _ _ Hdr) as [Hdl _].
  split; [done|].
  unfold acks, panics_in, handoffs, exit_trace, closing, redial_trace in *.
  rewrite !count_app, !omap_app.
  destruct (conn_usable o), pc0; simpl;
    rewrite ?omap_app, ?count_app; simpl;
    rewrite ?omap_app, ?count_app; simpl;
    rewrite ?Hda, ?Hdh, ?Hdp, ?Hdl;
    rewrite ?(late_sends_omap_nil _ ack_of), ?(late_sends_omap_nil _ panic_of),
            ?(late_sends_omap_nil _ handoff_of),
            ?(late_sends_count0 _ is_log) by done;
    simpl; rewrite ?app_nil_r, ?Nat.add_0_r; done.
Qed.


End Worker.

(** * Sessions used as examples *)

Definition pin_header : string := "X-Enproxy-Proxy-Host".
Definition op_write : string := "write".
Definition site : string := "example.com:80".

Definition reply (pin : string) (body : nat) : Response :=
  mkResponse {[ pin_header := [pin] ]} body.

Definition item (s : string) : request := mkRequest s site.

(** The relay answers, the connection stays usable, nothing else happens. *)
Definition answers (rsp : Response) : oracle :=
  mkOracle (returns (Some 3, Some 3, None)) false prefer_request true
           (returns (Some rsp, None)) false [] [].

(** The Transport Dialer fails, as with the protocol name of [doTestBad]. *)
Definition refused : error := errorString "dial fakebad: unknown network fakebad".


(** The exchange fails on a usable connection. *)
Definition exchange_error : error := errorString "read: connection reset by peer".

Definition exchange_fails : oracle :=
  mkOracle (returns (Some 3, Some 3, None)) false prefer_request true
           (returns (None, Some exchange_error)) false [] [].

(** The worker takes the stop signal first; the timer fires. *)
Definition takes_stop : oracle :=
  mkOracle (returns (Some 3, Some 3, None)) false prefer_stop true
           (returns (None, None)) false [] [].

Definition timer_fires (idle : bool) : oracle :=
  mkOracle (returns (Some 3, Some 3, None)) false prefer_timer true
           (returns (None, None)) idle [] [].

Abbreviation session es := (run pin_header op_write es (boot site 30)).
Abbreviation after o s := (step pin_header op_write (ev_worker o) s).

Definition entered : frame := mkFrame None (Some 3) (Some 3) None "" true std_defers.

(** The connection is found unusable and the redial fails; the session is
    found closed. *)
Definition redial_fails : oracle :=
  mkOracle (returns (None, None, Some refused)) false prefer_request false
           (returns (None, None)) false [] [].

Definition finds_closed : oracle :=
  mkOracle (returns (Some 3, Some 3, None)) true prefer_request true
           (returns (None, None)) false [] [].

(** The worker takes the stop signal; while its cleanup is between the
    [default] case and [Lock()], another goroutine submits a request. *)
Definition stops_with_late : oracle :=
  mkOracle (returns (Some 3, Some 3, None)) false prefer_stop true
           (returns (None, None)) false [] [item "b"].

(** A session whose worker has dialed and has one item to send. *)
Abbreviation one_item :=
  [ev_worker (answers (reply "10.0.0.7" 1)); ev_submit (item "a")].

(** The frame after a first exchange answered by [reply "10.0.0.7" 1]. *)
Definition pinned : frame :=
  mkFrame (Some (reply "10.0.0.7" 1)) (Some 3) (Some 3) None "10.0.0.7" false
          std_defers.

(** * The theorems at these sessions *)

Lemma C2_witness :
  let s := session [ev_worker (answers (reply "10.0.0.7" 1));
                    ev_submit (item "a"); ev_stop] in
  let s' := step pin_header op_write (ev_worker stops_with_late) s in
  worker s <> exited /\ worker s' = exited /\
  enqueued (trace s') = [item "a"; item "b"] /\
  forall es',
    requestOutCh (conn (run pin_header op_write es' s')) = [item "b"] /\
    received (trace (run pin_header op_write es' s')) = [item "a"] /\
    acks (trace (run pin_header op_write es' s')) = [Some io_EOF].
Proof.
  cbv zeta.
  assert (worker (session [ev_worker (answers (reply "10.0.0.7" 1));
                           ev_submit (item "a"); ev_stop])
          <> exited) as H1 by (vm_compute; discriminate).
  destruct (C2_late_submission_is_never_acknowledged pin_header op_write
              [ev_worker (answers (reply "10.0.0.7" 1));
               ev_submit (item "a"); ev_stop] site 30 stops_with_late
              H1 eq_refl)
    as (pre & pk & pending & n & d & _ & _ & _ & _ & _ & _ & Henq & Hall).
  split; [exact H1|]. split; [reflexivity|]. split; [exact Henq|].
  intros es'. destruct (Hall es') as (Hq & _ & Hr & Ha).
  split; [exact Hq|]. split; [exact Hr | exact Ha].
Defined.

Lemma C3_witness :
  let s := session one_item in
  let s' := step pin_header op_write (ev_worker exchange_fails) s in
  worker s = in_loop entered /\
  first entered = true /\
  isClosed_result exchange_fails = false /\
  select_ready (select_preference exchange_fails) (conn s) =
    (sel_request (item "a"), newConn site 30) /\
  worker s' = exited /\
  (forall es', handoffs (trace (run pin_header op_write es' s')) =
     [mkHostWithResponse "" None
        (Some (fmt_Errorf site "" "Unable to issue write request" exchange_error))]) /\
  (forall es', exchanged (trace (run pin_header op_write es' s')) =
               exchanged (trace s')).
Proof.
  cbv zeta.
  split; [reflexivity|]. split; [reflexivity|]. split; [reflexivity|].
  split; [reflexivity|].
  apply (C3_first_exchange_failure pin_header op_write one_item site 30 exchange_fails
           entered (item "a") (newConn site 30) exchange_error
           "Unable to issue write request" eq_refl eq_refl eq_refl eq_refl).
  right. split; [|reflexivity]. by exists (Some 3), (Some 3), None.
Defined.

Lemma C4_witness :
  let s := session [ev_worker (answers (reply "10.0.0.7" 1)); ev_stop;
                    ev_worker takes_stop] in
  worker s = exited /\
  doneRequesting (conn s) = true /\
  requestOutCh_closed (conn s) = true /\
  count is_setDoneRequesting (trace s) = 1 /\
  (forall r, submitRequest r (conn s) =
     (returns false, conn s, [a_rlock; a_readDoneRequesting true; a_runlock])).
Proof.
  cbv zeta.
  destruct (C4_no_writes_after_cleanup pin_header op_write
              [ev_worker (answers (reply "10.0.0.7" 1)); ev_stop;
               ev_worker takes_stop] site 30 eq_refl)
    as (H2 & H3 & H4 & _ & _ & _ & H5 & _).
  split; [reflexivity|]. split; [exact H2|]. split; [exact H3|].
  split; [exact H4 | exact H5].
Defined.

Lemma C5_witness :
  let s := session one_item in
  let s' := step pin_header op_write (ev_worker (answers (reply "10.0.0.7" 1))) s in
  worker s = in_loop entered /\
  handoffs (trace s') =
    [mkHostWithResponse "10.0.0.7" (Some (reply "10.0.0.7" 1)) None] /\
  worker s' = in_loop pinned.
Proof.
  cbv zeta.
  destruct (C5_pin_handed_once_and_kept pin_header op_write
              one_item
              site 30) as [Hfirst _].
  destruct (Hfirst (answers (reply "10.0.0.7" 1)) entered (item "a")
              (newConn site 30) (Some 3) (Some 3) (reply "10.0.0.7" 1)
              eq_refl eq_refl eq_refl eq_refl eq_refl eq_refl) as (_ & _ & Hh).
  split; [reflexivity|]. split; [exact Hh | reflexivity].
Defined.


Lemma C7_witness :
  let s := session one_item in
  let s' := step pin_header op_write (ev_worker exchange_fails) s in
  worker s = in_loop entered /\
  worker s' = exited /\
  forall es', exchanged (trace (run pin_header op_write es' s')) =
              exchanged (trace s) ++ [item "a"].
Proof.
  cbv zeta.
  destruct (C7_redial_then_terminal_failure pin_header op_write
              one_item
              site 30) as [_ Hfail].
  destruct (Hfail exchange_fails entered (item "a") (newConn site 30)
              (Some 3) (Some 3) None exchange_error
              eq_refl eq_refl eq_refl eq_refl eq_refl) as (_ & _ & H2 & H3).
  split; [reflexivity|]. split; [exact H2 | exact H3].
Defined.

Lemma C8_witness :
  let s := session [ev_worker (answers (reply "10.0.0.7" 1))] in
  let s1 := session one_item in
  let s2 := session [ev_worker (answers (reply "10.0.0.7" 1)); ev_stop] in
  worker s = in_loop entered /\
  step pin_header op_write (ev_worker (timer_fires false)) s =
    mkSystem (conn s) (in_loop entered)
             (trace s ++ [a_isClosed false; a_timer 30; a_isIdle false]) /\
  worker (step pin_header op_write (ev_worker (timer_fires true)) s) = exited /\
  (exists tail,
     trace (step pin_header op_write (ev_worker (answers (reply "10.0.0.7" 1))) s1) =
       trace s1 ++ [a_isClosed false; a_recvRequest (item "a")] ++ tail) /\
  worker (step pin_header op_write (ev_worker takes_stop) s2) = exited.
Proof.
  cbv zeta.
  destruct (C8_idle_timer pin_header op_write
              [ev_worker (answers (reply "10.0.0.7" 1))] site 30)
    as (_ & Htimer & _).
  pose proof (Htimer (timer_fires false) entered (newConn site 30)
                eq_refl eq_refl eq_refl) as Hbusy.
  pose proof (Htimer (timer_fires true) entered (newConn site 30)
                eq_refl eq_refl eq_refl) as Hidle.
  destruct (C8_idle_timer pin_header op_write one_item site 30)
    as (_ & _ & _ & _ & _ & _ & Hreq & _).
  destruct (C8_idle_timer pin_header op_write
              [ev_worker (answers (reply "10.0.0.7" 1)); ev_stop] site 30)
    as (_ & _ & _ & _ & _ & _ & _ & Hstop).
  split; [reflexivity|]. split; [exact Hbusy|]. split; [exact (proj1 Hidle)|].
  split.
  - exact (Hreq (answers (reply "10.0.0.7" 1)) entered (item "a") []
             eq_refl eq_refl eq_refl eq_refl).
  - exact (proj1 (Hstop takes_stop entered 0 eq_refl eq_refl eq_refl eq_refl)).
Defined.

Lemma C9_witness :
  let s := session [ev_worker (answers (reply "10.0.0.7" 1)); ev_submit (item "a");
                    ev_worker (answers (reply "10.0.0.7" 1))] in
  worker s = in_loop pinned /\
  resp pinned = Some (reply "10.0.0.7" 1) /\
  exists d, trace (step pin_header op_write (ev_worker finds_closed) s) =
    trace s ++ [a_isClosed true; a_proxyConnClose 3; a_cleanup None None] ++
    d ++ shutdown None.
Proof.
  cbv zeta.
  destruct (C9_cleanup_is_called_with_nil pin_header op_write
              [ev_worker (answers (reply "10.0.0.7" 1)); ev_submit (item "a");
               ev_worker (answers (reply "10.0.0.7" 1))] site 30)
    as (_ & _ & Hclose).
  split; [reflexivity|]. split; [reflexivity|].
  exact (Hclose finds_closed pinned 3 eq_refl eq_refl eq_refl).
Defined.

Lemma C10_witness :
  let s := session one_item in
  let s' := step pin_header op_write (ev_worker redial_fails) s in
  worker s = in_loop entered /\
  received (trace s') = [item "a"] /\
  acks (trace s') = [] /\
  forall es', length (received (trace (run pin_header op_write es' s'))) =
              S (acked (trace (run pin_header op_write es' s'))).
Proof.
  cbv zeta.
  destruct (C10_redial_failure_leaves_item_unacknowledged pin_header op_write
              one_item
              site 30 redial_fails entered (item "a") (newConn site 30)
              None None refused eq_refl eq_refl eq_refl eq_refl)
    as (_ & H2 & H3 & H4).
  split; [reflexivity|]. split; [exact H2|]. split; [exact H3 | exact H4].
Defined.

(** The Transport Dialer returns an error together with a connection. *)
Definition dial_fails_with_conn : oracle :=
  mkOracle (returns (Some 3, Some 3, Some refused)) false prefer_request false
           (returns (None, None)) false [] [].

(** The exchange returns neither a response nor an error. *)
Definition answers_nothing : oracle :=
  mkOracle (returns (Some 3, Some 3, None)) false prefer_request true
           (returns (None, None)) false [] [].

Lemma X1_witness :
  let s := session [ev_worker (answers (reply "10.0.0.7" 1)); ev_submit (item "a");
                    ev_worker (answers (reply "10.0.0.7" 1)); ev_submit (item "b")] in
  worker s = in_loop pinned /\
  received (trace s) ++ requestOutCh (conn s) = [item "a"; item "b"] /\
  exchanged (trace s) = received (trace s).
Proof.
  cbv zeta.
  destruct (X1_requests_conserved pin_header op_write
              [ev_worker (answers (reply "10.0.0.7" 1)); ev_submit (item "a");
               ev_worker (answers (reply "10.0.0.7" 1)); ev_submit (item "b")]
              site 30) as (H1 & _ & H3).
  split; [reflexivity|]. split; [exact H1 | exact (H3 pinned eq_refl)].
Defined.

Lemma X3_witness :
  let s := session [ev_worker (answers (reply "10.0.0.7" 1)); ev_submit (item "a");
                    ev_worker (answers (reply "10.0.0.7" 1))] in
  handoffs (trace s) =
    [mkHostWithResponse "10.0.0.7" (Some (reply "10.0.0.7" 1)) None] /\
  "10.0.0.7" = Header_Get (Header (reply "10.0.0.7" 1)) pin_header.
Proof.
  cbv zeta.
  destruct (X3_initial_response_sent_at_most_once pin_header op_write
              [ev_worker (answers (reply "10.0.0.7" 1)); ev_submit (item "a");
               ev_worker (answers (reply "10.0.0.7" 1))] site 30) as (_ & H2).
  split; [reflexivity|].
  exact (H2 (mkHostWithResponse "10.0.0.7" (Some (reply "10.0.0.7" 1)) None)
            (list_elem_of_here _ [])).
Defined.


Lemma X6_witness :
  let s := session one_item in
  worker s <> exited /\ count is_log (trace s) = 0.
Proof.
  cbv zeta.
  assert (worker (session one_item) <> exited) as H1
    by (vm_compute; discriminate).
  destruct (X6_logs_once_when_leaving pin_header op_write one_item site 30)
    as (_ & H2).
  split; [exact H1 | exact (H2 H1)].
Defined.

Lemma X7_witness :
  let s := session [ev_submit (item "a")] in
  worker s = not_started /\
  dialProxy_result dial_fails_with_conn = returns (Some 3, Some 3, Some refused) /\
  forall es',
    count is_proxyConnClose
      (trace (run pin_header op_write es'
                (step pin_header op_write (ev_worker dial_fails_with_conn) s))) = 0.
Proof.
  cbv zeta.
  destruct (X7_closure_runs_once_when_leaving pin_header op_write
              [ev_submit (item "a")] site 30) as (_ & _ & H3).
  split; [reflexivity|]. split; [reflexivity|].
  intros es'.
  exact (H3 dial_fails_with_conn (Some 3) (Some 3) refused es' eq_refl eq_refl).
Defined.

Lemma X8_witness :
  let s := session [ev_worker (answers (reply "10.0.0.7" 1));
                    ev_submit (item "a"); ev_submit (item "b")] in
  let s' := step pin_header op_write (ev_worker answers_nothing) s in
  worker s = in_loop entered /\
  worker s' = exited /\
  acks (trace s') = [None; Some io_ErrUnexpectedEOF] /\
  panics_in (trace s') = [nil_dereference] /\
  handoffs (trace s') = [].
Proof.
  cbv zeta.
  destruct (X8_nil_response_faults_after_acknowledging pin_header op_write
              [ev_worker (answers (reply "10.0.0.7" 1));
               ev_submit (item "a"); ev_submit (item "b")]
              site 30 answers_nothing entered (item "a")
              (mkConn site 30 [item "b"] false 0 false) (Some 3) (Some 3)
              eq_refl eq_refl eq_refl eq_refl eq_refl)
    as (H1 & H2 & H3 & H4 & _).
  split; [reflexivity|]. split; [exact H1|]. split; [exact H2|].
  split; [exact H3 | exact H4].
Defined.

